(** * AnyLetters: the word-candidate engine and the guess scorer

    A shallow embedding of [main.py] and [filter.py].

    Conventions.
    - A Python [str] is the list of its Unicode code points ([list N]), so
      that [len] is [length] and indexing is list lookup.
    - A Python [int] is a [Z].
    - A [dict] with string or character keys is a [gmap]; a [set] of strings
      is a [gset]; [dict.get(k, d)] is [default d (m !! k)].
    - A raised exception is an explicit [Raise] outcome; [option] is used
      where a single exception kind is possible.
    - The file system is a store from paths to decoded text, with the paths
      that cannot be opened for writing; the behaviour of the interpreter's
      Unicode tables, of the [re] engine, of [os.path] and of the JSON-backed
      filter configuration is taken from a [PyRuntime]. *)

From Stdlib Require Import ZArith Lia Ascii String.
From stdpp Require Import base option list sorting gmap strings pretty.

Open Scope Z_scope.

(** ** Python strings *)

Abbreviation char := N (only parsing).
Abbreviation str := (list N) (only parsing).

(** [py "abc"] is the Python string with the same ASCII characters. *)
Definition py (s : string) : str :=
  N_of_ascii <$> list_ascii_of_string s.
Arguments py : simpl never.

Definition NL : N := 10%N.   (* "\n" *)
Definition CR : N := 13%N.   (* "\r" *)
Definition SLASH : N := 47%N. (* "/" *)
Definition DASH : N := 45%N.  (* "-" *)

(** [len(s)] as a Python integer. *)
Definition len {A} (s : list A) : Z := Z.of_nat (length s).

(** ** Guess scorer ([score_guess], main.py) *)

Inductive marker := G | Y | B.

Global Instance marker_eq_dec : EqDecision marker.
Proof. solve_decision. Defined.

(** [remaining.get(k, 0)] *)
Definition get0 (remaining : gmap N Z) (k : N) : Z := default 0 (remaining !! k).

(** [for i in range(n): s = body(s, i)], where the body may raise. *)
Definition for_range {S} (n : nat) (body : S → nat → option S) (s : S) : option S :=
  foldl (λ acc i, acc ≫= λ s, body s i) (Some s) (seq 0 n).

(** Body of the first loop. [guess[i]] out of range raises [IndexError],
    rendered as [None]. *)
Definition score_pass1 (guess target : str)
    (st : list marker * gmap N Z) (i : nat) : option (list marker * gmap N Z) :=
  g ← guess !! i;
  t ← target !! i;
  if decide (g = t) then Some (<[i := G]> st.1, st.2)
  else Some (st.1, <[t := get0 st.2 t + 1]> st.2).

(** Body of the second loop. *)
Definition score_pass2 (guess : str)
    (st : list marker * gmap N Z) (i : nat) : option (list marker * gmap N Z) :=
  r ← st.1 !! i;
  if decide (r = G) then Some st
  else
    g ← guess !! i;
    let count := get0 st.2 g in
    if decide (0 < count) then Some (<[i := Y]> st.1, <[g := count - 1]> st.2)
    else Some st.

Definition score_guess (guess target : str) : option (list marker) :=
  let length := length target in
  st1 ← for_range length (score_pass1 guess target) (replicate length B, ∅);
  st2 ← for_range length (score_pass2 guess) st1;
  Some st2.1.

(** Number of positions [i < n] that satisfy [P]. *)
Definition count_positions (n : nat) (P : nat → Prop) `{∀ i, Decision (P i)} : nat :=
  length (filter P (seq 0 n)).


(** Indicator of a decidable proposition. *)
Definition ind (P : Prop) `{Decision P} : nat := if decide P then 1%nat else 0%nat.

(** ** String primitives *)

(** Truth value of a sequence: empty is false. *)
Definition nonempty {A} (l : list A) : bool :=
  match l with [] => false | _ :: _ => true end.

(** The characters [str.strip()] and [str.split()] treat as whitespace
    (the interpreter's [Py_UNICODE_ISSPACE]). *)
Definition is_space (c : N) : bool :=
  (((9 <=? c) && (c <=? 13)) || ((28 <=? c) && (c <=? 32))
   || (c =? 133) || (c =? 160) || (c =? 5760)
   || ((8192 <=? c) && (c <=? 8202))
   || (c =? 8232) || (c =? 8233) || (c =? 8239) || (c =? 8287)
   || (c =? 12288))%N.

Fixpoint lstrip (s : str) : str :=
  match s with
  | [] => []
  | c :: rest => if is_space c then lstrip rest else s
  end.

Definition rstrip (s : str) : str := reverse (lstrip (reverse s)).

(** [s.strip()] *)
Definition strip (s : str) : str := rstrip (lstrip s).

(** [s.split()]: maximal runs of non-whitespace characters. [cur] is the
    field being read, reversed. *)
Fixpoint split_ws_from (cur : str) (s : str) : list str :=
  match s with
  | [] => if nonempty cur then [reverse cur] else []
  | c :: rest =>
      if is_space c then
        (if nonempty cur then reverse cur :: split_ws_from [] rest
         else split_ws_from [] rest)
      else split_ws_from (c :: cur) rest
  end.

Definition split_ws (s : str) : list str := split_ws_from [] s.

(** [s.startswith(p)] and [s.endswith(p)] *)
Fixpoint startswith (s p : str) : bool :=
  match p, s with
  | [], _ => true
  | _ :: _, [] => false
  | c :: p', d :: s' => (c =? d)%N && startswith s' p'
  end.

Definition endswith (s p : str) : bool := startswith (reverse s) (reverse p).

(** [s[:-k]] for [k > 0] *)
Definition drop_last (k : nat) (s : str) : str := take (length s - k) s.

(** [s.split(sep, 1)] when [sep in s]: the text before and after the first
    separator; [None] when [sep not in s]. *)
Fixpoint split_once (sep : N) (s : str) : option (str * str) :=
  match s with
  | [] => None
  | c :: rest =>
      if (c =? sep)%N then Some ([], rest)
      else '(a, b) ← split_once sep rest; Some (c :: a, b)
  end.

(** Universal-newline translation done by a text-mode read. *)
Fixpoint universal_newlines (s : str) : str :=
  match s with
  | [] => []
  | c :: rest =>
      if (c =? CR)%N then
        match rest with
        | d :: rest' =>
            if (d =? NL)%N then NL :: universal_newlines rest'
            else NL :: universal_newlines rest
        | [] => [NL]
        end
      else c :: universal_newlines rest
  end.

(** The lines a file iterator yields: each ends with its newline, except
    possibly the last. *)
Fixpoint split_keepends (s : str) : list str :=
  match s with
  | [] => []
  | c :: rest =>
      if (c =? NL)%N then [c] :: split_keepends rest
      else match split_keepends rest with
           | [] => [[c]]
           | l :: ls => (c :: l) :: ls
           end
  end.

Definition text_lines (content : str) : list str :=
  split_keepends (universal_newlines content).

(** A word that is not empty and holds no whitespace. *)
Definition plain_word (w : list N) : Prop :=
  w ≠ [] ∧ Forall (λ c, is_space c = false) w.

(** [sorted(...)] on strings: code-point lexicographic order. *)
Fixpoint str_leb (a b : str) : bool :=
  match a, b with
  | [], _ => true
  | _ :: _, [] => false
  | x :: a', y :: b' => (x <? y)%N || ((x =? y)%N && str_leb a' b')
  end.

Definition str_le (a b : str) : Prop := str_leb a b = true.

Global Instance str_le_dec : RelDecision str_le.
Proof. intros a b. unfold str_le. apply _. Defined.

Definition sorted (l : list str) : list str := merge_sort str_le l.

(** [dict.fromkeys(words)] read back as a list: first occurrences, in order. *)
Fixpoint dict_fromkeys (seen : list str) (words : list str) : list str :=
  match words with
  | [] => []
  | w :: rest =>
      if bool_decide (w ∈ seen) then dict_fromkeys seen rest
      else w :: dict_fromkeys (w :: seen) rest
  end.

(** [sorted(dict.fromkeys(words))] *)
Definition sorted_unique (words : list str) : list str :=
  sorted (dict_fromkeys [] words).

(** ** The interpreter and its libraries *)

(** What a call of [re.search] or [re.match] does, as far as the generator
    tells the cases apart: a match object, [None], or [re.error] raised while
    the pattern is compiled. The [re] module can raise other exceptions
    ([OverflowError] for a repetition count too large, [RecursionError]);
    the generator does not catch them, and a call that raises one is outside
    what is modelled here. *)
Inductive re_outcome :=
  | ReFound      (* a match object *)
  | ReNotFound   (* None *)
  | ReError.     (* re.error raised while compiling the pattern *)

(** [FilterConfig] (filter.py) *)
Record FilterConfig := {
  prefixes : list str;
  suffixes : list str;
  blacklist : list str;
  blacklist_files : list str;
}.

Class PyRuntime := {
  (** [str.lower()] *)
  str_lower : str → str;
  (** per-character tests behind [str.isalpha()] and [str.isdigit()] *)
  char_isalpha : N → bool;
  char_isdigit : N → bool;
  (** [unicodedata.normalize("NFC", ·)] *)
  nfc : str → str;
  (** [re.search(pattern, text)] and [re.match(pattern, text)] *)
  re_search : str → str → re_outcome;
  re_match : str → str → re_outcome;
  (** the optional [better_profanity] detector; [None] when not installed *)
  profanity : option (str → bool);
  (** the memoised [load_filter_config(archetype)] *)
  load_filter_config : str → FilterConfig;
  (** [os.path.join], [os.path.normpath], [os.path.splitext(·)[0]] *)
  path_join : str → str → str;
  normpath : str → str;
  splitext_root : str → str;
  (** [_resource_path]: the absolute path of a bundled resource *)
  _resource_path : str → str;
}.

(** The exceptions that leave the modelled functions. [OSError] stands for
    itself and its subclasses as [open(path, "w")] raises them. *)
Inductive exn := ValueError | FileNotFoundError | OSError | UnicodeEncodeError.

Inductive result (A : Type) :=
  | Ok (a : A)
  | Raise (e : exn).
Arguments Ok {A} a.
Arguments Raise {A} e.

(** The file system, as far as the program depends on it: the decoded text of
    each regular file; the listings, in [os.listdir] order, of the folders the
    program lists (the dictionary folders); and the paths at which
    [open(path, "w")] raises [OSError], because the directory is missing and
    could not be created, or is read-only, or the path names a directory.
    [cache_path] and [_ensure_solution_cache_dir] try to create the cache
    directories and swallow a failure: whether a cache file can then be
    written is what [fs_unwritable] records. The cache directories themselves
    and their listings are not tracked, and a file that could be opened takes
    all the text written to it: a device that fails in the middle of a write
    is not modelled. *)
Record FileSystem := {
  fs_files : gmap (list N) (list N);
  fs_listdir : gmap (list N) (list (list N));
  fs_unwritable : gset (list N);
}.

(** The text stored at [path] once a file opened for writing is closed. *)
Definition fs_write (path content : str) (fs : FileSystem) : FileSystem :=
  {| fs_files := <[path := content]> (fs_files fs);
     fs_listdir := fs_listdir fs;
     fs_unwritable := fs_unwritable fs |}.

(** UTF-8 encodes every code point of a [str] but the surrogates
    U+D800..U+DFFF, at which the encoder raises [UnicodeEncodeError]. *)
Definition is_surrogate (c : N) : bool := ((55296 <=? c) && (c <=? 57343))%N.
Definition encodable (s : str) : bool := forallb (λ c, negb (is_surrogate c)) s.

(** The words whose lines reach the file: [handle.write(word + "\n")] encodes
    its argument at once, so the loop stops at the first word that cannot be
    encoded, and closing the file flushes the lines written before it. *)
Fixpoint written_before_error (words : list str) : list str :=
  match words with
  | [] => []
  | word :: rest => if encodable word then word :: written_before_error rest else []
  end.

(** [with open(path, "w", encoding="utf-8") as handle:
       for word in words: handle.write(word + "\n")]
    [open] raises [OSError] and leaves the file system as it was; otherwise
    the file is replaced, also when a later [write] raises. *)
Definition write_words (path : str) (words : list str) (fs : FileSystem)
    : result unit * FileSystem :=
  if bool_decide (path ∈ fs_unwritable fs) then (Raise OSError, fs)
  else
    let fs' := fs_write path (concat ((λ word, word ++ [NL]) <$> written_before_error words)) fs in
    if forallb encodable words then (Ok (), fs') else (Raise UnicodeEncodeError, fs').

Section Program.
Context `{rt : PyRuntime}.

(** [s.isalpha()], [s.isdigit()] *)
Definition str_isalpha (s : str) : bool := nonempty s && forallb char_isalpha s.
Definition str_isdigit (s : str) : bool := nonempty s && forallb char_isdigit s.

(** ** Dictionary entry parser *)

Definition _normalize_word (word : str) : str := str_lower (nfc word).

(** [stripped.split("/", 1) if "/" in stripped else (stripped, "")], then the
    normalised base with its flags. *)
Definition dic_entry (stripped : str) : str * str :=
  let '(base, flags) :=
    match split_once SLASH stripped with
    | Some p => p
    | None => (stripped, [])
    end in
  (_normalize_word base, flags).

(** The stripped lines of a text that are not blank, in order. *)
Definition nonblank_lines (content : str) : list str :=
  filter (λ s, nonempty s = true) (strip <$> text_lines content).

(** The loop of [parse_dic_entries] over the lines of the file, with its
    [first] flag. *)
Fixpoint parse_dic_lines (first : bool) (lines : list str) : list (str * str) :=
  match lines with
  | [] => []
  | line :: rest =>
      let stripped := strip line in
      if negb (nonempty stripped) then parse_dic_lines first rest
      else if first && str_isdigit stripped then parse_dic_lines false rest
      else dic_entry stripped :: parse_dic_lines false rest
  end.

Definition parse_dic_entries (fs : FileSystem) (dic_path : str)
    : result (list (str * str)) :=
  match fs_files fs !! dic_path with
  | None => Raise FileNotFoundError
  | Some content => Ok (parse_dic_lines true (text_lines content))
  end.

(** ** Affix rule parser *)

Record AffRules := {
  sfx : gmap (list N) (list (str * str * str));
  pfx : gmap (list N) (list (str * str * str));
}.

Definition AffRules_empty : AffRules := {| sfx := ∅; pfx := ∅ |}.

(** [store.setdefault(flag, []).append((strip, add, cond))] *)
Definition add_rule (rules : AffRules) (is_suffix : bool)
    (flag strip_ add cond : str) : AffRules :=
  if is_suffix then
    {| sfx := <[flag := default [] (sfx rules !! flag) ++ [(strip_, add, cond)]]> (sfx rules);
       pfx := pfx rules |}
  else
    {| sfx := sfx rules;
       pfx := <[flag := default [] (pfx rules !! flag) ++ [(strip_, add, cond)]]> (pfx rules) |}.

(** [parts[i]], used only below the length guards. *)
Definition part (parts : list str) (i : nat) : str := default [] (parts !! i).

(** One iteration of the loop of [parse_aff_rules]. *)
Definition parse_aff_line (rules : AffRules) (line : str) : AffRules :=
  let stripped := strip line in
  if negb (nonempty stripped) || startswith stripped (py "#") then rules
  else
    let parts := split_ws stripped in
    if bool_decide (length parts < 4)%nat then rules
    else
      let type_tag := part parts 0 in
      if negb (bool_decide (type_tag = py "SFX") || bool_decide (type_tag = py "PFX"))
      then rules
      else if bool_decide (5 ≤ length parts)%nat
              && negb (bool_decide (part parts 2 = py "Y"))
              && negb (bool_decide (part parts 2 = py "N"))
      then
        let flag := part parts 1 in
        let strip_ := if negb (bool_decide (part parts 2 = py "0")) then part parts 2 else [] in
        let add := if negb (bool_decide (part parts 3 = py "0")) then part parts 3 else [] in
        let cond := if bool_decide (5 ≤ length parts)%nat then part parts 4 else py "." in
        add_rule rules (bool_decide (type_tag = py "SFX")) flag strip_ add cond
      else rules.

Definition parse_aff_rules (fs : FileSystem) (aff_path : str) : AffRules :=
  match fs_files fs !! aff_path with
  | None => AffRules_empty
  | Some content => foldl parse_aff_line AffRules_empty (text_lines content)
  end.

(** ** Affix expansion engine *)

(** A character of the class [[a-zäöüß]]. *)
Definition letter (c : N) : bool :=
  (((97 <=? c) && (c <=? 122)) || (c =? 228) || (c =? 246) || (c =? 252) || (c =? 223))%N.

Fixpoint skip_letters (s : str) : str :=
  match s with
  | [] => []
  | c :: rest => if letter c then skip_letters rest else s
  end.

(** [letters_re.match(s)] for [letters_re = re.compile(r"^[a-zäöüß]+$")]:
    at least one letter of the class, then the end of the text, where [$]
    also matches just before a newline that ends the text. *)
Definition letters_re_match (s : str) : bool :=
  match s with
  | [] => false
  | c :: rest =>
      letter c &&
      (let tail := skip_letters rest in
       bool_decide (tail = []) || bool_decide (tail = [NL]))
  end.

(** [blocked_suffix_additions and add and add.lower() in blocked_suffix_additions] *)
Definition suffix_blocked (blocked_suffix_additions : option (gset (list N)))
    (add : str) : bool :=
  match blocked_suffix_additions with
  | None => false
  | Some blocked =>
      negb (bool_decide (blocked = ∅)) && nonempty add
      && bool_decide (str_lower add ∈ blocked)
  end.

(** The [try] block around the condition test: [true] when the rule is
    abandoned ([continue]); a raised [re.error] is swallowed. *)
Definition cond_fails (cond : str) (outcome : re_outcome) : bool :=
  nonempty cond &&
  match outcome with
  | ReFound => false
  | ReNotFound => true
  | ReError => false
  end.

(** [len(candidate) == word_length and letters_re.match(candidate)] *)
Definition keeps (word_length : Z) (candidate : str) : bool :=
  bool_decide (len candidate = word_length) && letters_re_match candidate.

(** The stem a suffix rule works on: [base] without [strip]; no stem
    ([continue]) when a non-empty [strip] does not end [base]. *)
Definition sfx_stem (base strip_ : str) : option str :=
  if nonempty strip_ && endswith base strip_
  then Some (drop_last (length strip_) base)
  else if nonempty strip_ then None
  else Some base.

(** The same for a prefix rule. *)
Definition pfx_stem (base strip_ : str) : option str :=
  if nonempty strip_ && startswith base strip_
  then Some (drop (length strip_) base)
  else if nonempty strip_ then None
  else Some base.

(** What a rule yields once its condition is out of the way: the candidate,
    when it has the target length and matches [letters_re]. *)
Definition kept (word_length : Z) (candidate : str) : option str :=
  if keeps word_length candidate then Some candidate else None.

(** Body of the suffix loop for one rule: the candidate it yields, if any. *)
Definition sfx_step (base : str) (word_length : Z)
    (blocked_suffix_additions : option (gset (list N)))
    (rule : str * str * str) : option str :=
  let '(strip_, add, cond) := rule in
  if suffix_blocked blocked_suffix_additions add then None
  else
    stem ← sfx_stem base strip_;
    let candidate := stem ++ add in
    if cond_fails cond (re_search (cond ++ py "$") stem) then None
    else kept word_length candidate.

(** Body of the prefix loop for one rule. *)
Definition pfx_step (base : str) (word_length : Z)
    (rule : str * str * str) : option str :=
  let '(strip_, add, cond) := rule in
  stem ← pfx_stem base strip_;
  let candidate := add ++ stem in
  if cond_fails cond (re_match (py "^" ++ cond) stem) then None
  else kept word_length candidate.

(** The generator, as the list of the words it yields, in order. *)
Definition _generate_affixed_candidates (base flags : str) (rules : AffRules)
    (word_length : Z) (blocked_suffix_additions : option (gset (list N)))
    : list str :=
  flags ≫= λ flag,
    omap (sfx_step base word_length blocked_suffix_additions)
         (default [] (sfx rules !! [flag]))
    ++ omap (pfx_step base word_length) (default [] (pfx rules !! [flag])).

Definition expand_with_affixes (entries : list (str * str)) (rules : AffRules)
    (word_length : Z) (blocked_suffix_additions : option (gset (list N)))
    : gset (list N) :=
  foldl (λ (result : gset (list N)) '(base, flags),
           let result :=
             if bool_decide (len base = word_length) && letters_re_match base
             then result ∪ {[ base ]} else result in
           result ∪ list_to_set
             (_generate_affixed_candidates base flags rules word_length
                blocked_suffix_additions))
        ∅ entries.

(** [_prune_blocked_suffix_bases]: the words that stay. *)
Definition looks_suffixed (blocked_suffixes normalized_catalog : gset (list N))
    (word : str) : bool :=
  let lower_word := str_lower word in
  existsb (λ suffix,
             nonempty suffix && endswith lower_word suffix &&
             (let stem := drop_last (length suffix) lower_word in
              nonempty stem && bool_decide (stem ∈ normalized_catalog)))
          (elements blocked_suffixes).

Definition _prune_blocked_suffix_bases (words blocked_suffixes catalog : gset (list N))
    : gset (list N) :=
  if bool_decide (blocked_suffixes = ∅) || bool_decide (words = ∅) then words
  else
    let normalized_catalog : gset (list N) := set_map str_lower catalog in
    filter (λ word, looks_suffixed blocked_suffixes normalized_catalog word = false) words.

(** ** Gathering the dictionary data *)

(** [d[k] = v] on a dict whose iteration order matters: an existing key keeps
    its place. *)
Fixpoint odict_set (k v : str) (d : list (str * str)) : list (str * str) :=
  match d with
  | [] => [(k, v)]
  | (k', v') :: rest =>
      if bool_decide (k' = k) then (k, v) :: rest else (k', v') :: odict_set k v rest
  end.

Definition odict_get (k : str) (d : list (str * str)) : option str :=
  '(_, kv) ← list_find (λ kv, kv.1 = k) d; Some kv.2.

Definition _find_matching_dict_pairs (fs : FileSystem) (directory : str)
    : result (list (str * str)) :=
  match fs_listdir fs !! directory with
  | None => Raise FileNotFoundError
  | Some names =>
      let '(aff_files, dic_files) :=
        foldl (λ '(aff_files, dic_files) name,
                 let name_lower := str_lower name in
                 let base_name := splitext_root name in
                 let full_path := normpath (path_join directory name) in
                 if endswith name_lower (py ".aff")
                 then (odict_set base_name full_path aff_files, dic_files)
                 else if endswith name_lower (py ".dic")
                 then (aff_files, odict_set base_name full_path dic_files)
                 else (aff_files, dic_files))
              ([], []) names in
      Ok (omap (λ '(base_name, aff_path),
                  dic_path ← odict_get base_name dic_files;
                  Some (aff_path, dic_path))
               aff_files)
  end.

(** [for flag, rule_list in src.items(): dst.setdefault(flag, []).extend(rule_list)] *)
Definition merge_rules (dst src : gmap (list N) (list (str * str * str)))
    : gmap (list N) (list (str * str * str)) :=
  map_fold (λ flag rule_list acc, <[flag := default [] (acc !! flag) ++ rule_list]> acc)
           dst src.

Fixpoint _load_dictionary_components (fs : FileSystem) (dict_pairs : list (str * str))
    (combined_rules : AffRules) (all_entries : list (str * str))
    : result (AffRules * list (str * str)) :=
  match dict_pairs with
  | [] => Ok (combined_rules, all_entries)
  | (aff_path, dic_path) :: rest =>
      let rules := parse_aff_rules fs aff_path in
      let combined_rules :=
        {| sfx := merge_rules (sfx combined_rules) (sfx rules);
           pfx := merge_rules (pfx combined_rules) (pfx rules) |} in
      match parse_dic_entries fs dic_path with
      | Raise e => Raise e
      | Ok entries =>
          _load_dictionary_components fs rest combined_rules (all_entries ++ entries)
      end
  end.

Record DictionaryWordData := {
  base_words : gset (list N);
  affixed_words : gset (list N);
  catalog : gset (list N);
}.

Definition combined (data : DictionaryWordData) : gset (list N) :=
  base_words data ∪ affixed_words data.

(** [{s.lower() for s in config.suffixes if s}] *)
Definition lowered_suffixes (config : FilterConfig) : gset (list N) :=
  list_to_set (str_lower <$> filter (λ s, nonempty s = true) (suffixes config)).

Definition _collect_dictionary_word_data (fs : FileSystem) (dict_folder : str)
    (word_length : Z) (lang : str) : result DictionaryWordData :=
  match _find_matching_dict_pairs fs dict_folder with
  | Raise e => Raise e
  | Ok dict_pairs =>
  match _load_dictionary_components fs dict_pairs AffRules_empty [] with
  | Raise e => Raise e
  | Ok (combined_rules, all_entries) =>
      if negb (nonempty all_entries) then Raise ValueError
      else
        let base_words : gset (list N) :=
          list_to_set (fst <$> filter (λ e, len e.1 = word_length) all_entries) in
        let normalized_lang := str_lower (strip lang) in
        let blocked_lang : gset (list N) :=
          if nonempty normalized_lang then
            let archetype :=
              match split_once DASH normalized_lang with
              | Some (a, _) => a
              | None => normalized_lang
              end in
            if nonempty archetype then lowered_suffixes (load_filter_config archetype)
            else ∅
          else ∅ in
        let blocked_suffixes :=
          blocked_lang ∪ lowered_suffixes (load_filter_config (py "global")) in
        let affixed_words :=
          expand_with_affixes all_entries combined_rules word_length
            (if bool_decide (blocked_suffixes = ∅) then None else Some blocked_suffixes) in
        let source_catalog : gset (list N) := list_to_set (fst <$> all_entries) in
        let base_words := _prune_blocked_suffix_bases base_words blocked_suffixes source_catalog in
        let affixed_words := _prune_blocked_suffix_bases affixed_words blocked_suffixes source_catalog in
        Ok {| base_words := base_words; affixed_words := affixed_words;
              catalog := source_catalog |}
  end end.

(** ** Language filter pipeline (filter.py) *)

Definition _contains_profanity (text : str) : bool :=
  match profanity with
  | None => false
  | Some contains_profanity => contains_profanity text
  end.

(** [any(word_lower.startswith(p) for p in config.prefixes)] and its mirror *)
Definition _matches_prefix (config : FilterConfig) (word_lower : str) : bool :=
  existsb (λ prefix, startswith word_lower prefix) (prefixes config).

Definition _matches_suffix (config : FilterConfig) (word_lower : str) : bool :=
  existsb (λ suffix, endswith word_lower suffix) (suffixes config).

(** The tests of [LanguageFilter.apply] that do not look at [seen]. *)
Definition acceptable (config : FilterConfig) (word : str) : bool :=
  let lower := str_lower word in
  str_isalpha lower
  && negb (_contains_profanity word)
  && negb (bool_decide (lower ∈ blacklist config))
  && negb (_matches_prefix config lower || _matches_suffix config lower).

(** One iteration of the loop of [LanguageFilter.apply] on
    [(processed, seen)]. *)
Definition apply_step (config : FilterConfig)
    (st : list str * gset (list N)) (word : str) : list str * gset (list N) :=
  let lower := str_lower word in
  if negb (acceptable config word) then st
  else if bool_decide (lower ∈ st.2) then st
  else (st.1 ++ [word], st.2 ∪ {[ lower ]}).

(** What the loop of [LanguageFilter.apply] maintains on [(processed, seen)]. *)
Definition apply_invariant (config : FilterConfig) (st : list (list N) * gset (list N)) : Prop :=
  Forall (λ w, acceptable config w = true) st.1
  ∧ NoDup (str_lower <$> st.1)
  ∧ ∀ x, x ∈ st.2 ↔ x ∈ str_lower <$> st.1.

Definition LanguageFilter_apply (config : FilterConfig) (words : list str)
    (_catalog : gset (list N)) : list str :=
  sorted (foldl (apply_step config) ([], ∅) words).1.

(** [_FILTER_CLASSES] has the keys ["en"] and ["de"]; every filter class
    only loads the configuration of its archetype. *)
Definition _FILTER_CLASSES : list str := [py "en"; py "de"].

Definition _get_filter_for_archetype (archetype : str) : FilterConfig :=
  load_filter_config archetype.

Definition _language_archetype (lang : str) : option str :=
  let normalized := str_lower (strip lang) in
  if negb (nonempty normalized) then None
  else if bool_decide (normalized ∈ _FILTER_CLASSES) then Some normalized
  else
    let normalized :=
      match split_once DASH normalized with
      | Some (a, _) => a
      | None => normalized
      end in
    if nonempty normalized then Some normalized else None.

Definition filter_candidates (words : list str) (lang : str)
    (catalog : gset (list N)) (enable_filters : bool) : list str :=
  if negb enable_filters then sorted_unique words
  else
    let filtered := sorted_unique words in
    let global_filter := _get_filter_for_archetype (py "global") in
    let filtered :=
      if nonempty filtered then LanguageFilter_apply global_filter filtered catalog
      else filtered in
    match _language_archetype lang with
    | None => filtered
    | Some archetype =>
        LanguageFilter_apply (_get_filter_for_archetype archetype) filtered catalog
    end.

Definition apply_language_filters (lang : str) (words : list str)
    (catalog : gset (list N)) (enable_filters : bool) : list str :=
  filter_candidates words lang catalog enable_filters.

(** ** Filtered-solution cache (filter.py) *)

(** [f"{lang}_{word_length}.txt"] under [cache/solutions_filtered]. *)
Definition solution_cache_path (lang : str) (word_length : Z) : str :=
  let directory := normpath (path_join (py "cache") (py "solutions_filtered")) in
  let filename := lang ++ py "_" ++ py (pretty word_length) ++ py ".txt" in
  normpath (path_join directory filename).

Definition load_filtered_solution_cache (fs : FileSystem) (lang : str)
    (word_length : Z) : list str :=
  match fs_files fs !! solution_cache_path lang word_length with
  | None => []
  | Some content =>
      filter (λ line, nonempty line = true) (strip <$> text_lines content)
  end.

(** Returns [None] or raises what [open] or [write] raise. *)
Definition save_filtered_solution_cache (fs : FileSystem) (lang : str)
    (word_length : Z) (words : list str) : result unit * FileSystem :=
  let path := solution_cache_path lang word_length in
  let unique_sorted := sorted_unique words in
  write_words path unique_sorted fs.

(** ** Solution list for play (main.py) *)

Definition _load_or_build_filtered_solutions (fs : FileSystem) (lang : str)
    (word_length : Z) (dict_folder : str) (enable_filters : bool)
    : result (list str) * FileSystem :=
  let cached := if enable_filters then load_filtered_solution_cache fs lang word_length else [] in
  if enable_filters && nonempty cached then (Ok cached, fs)
  else
    match _collect_dictionary_word_data fs dict_folder word_length lang with
    | Raise e => (Raise e, fs)
    | Ok data =>
        let generated_words := sorted (elements (combined data)) in
        if negb (nonempty generated_words) then (Raise ValueError, fs)
        else if negb enable_filters then (Ok generated_words, fs)
        else
          let filtered :=
            apply_language_filters lang generated_words (catalog data) enable_filters in
          let filtered := if negb (nonempty filtered) then generated_words else filtered in
          match save_filtered_solution_cache fs lang word_length filtered with
          | (Raise e, fs) => (Raise e, fs)
          | (Ok _, fs) => (Ok filtered, fs)
          end
    end.

(** ** Morphological heuristics (main.py) *)

Definition has (catalog : gset (list N)) (stem : str) : bool :=
  bool_decide (stem ∈ catalog).

Definition endswith_any (w : str) (suffixes : list str) : bool :=
  existsb (endswith w) suffixes.

Definition _looks_plural_en (word : str) (catalog : gset (list N)) : bool :=
  let w := str_lower word in
  if bool_decide (length w ≤ 3)%nat then false
  else if endswith w (py "ies") && bool_decide (3 < length w)%nat
          && has catalog (drop_last 3 w ++ py "y") then true
  else if endswith w (py "ves") && bool_decide (3 < length w)%nat
          && (has catalog (drop_last 3 w ++ py "f")
              || has catalog (drop_last 3 w ++ py "fe")) then true
  else if endswith_any w [py "ses"; py "xes"; py "zes"; py "ches"; py "shes"]
          && has catalog (drop_last 2 w) then true
  else if endswith w (py "men") && bool_decide (3 < length w)%nat
          && has catalog (drop_last 3 w ++ py "man") then true
  else if endswith w (py "es") && bool_decide (2 < length w)%nat
          && has catalog (drop_last 2 w) then true
  else if endswith w (py "s") && bool_decide (2 < length w)%nat
          && negb (endswith_any w [py "ss"; py "us"; py "is"; py "ous"])
          && has catalog (drop_last 1 w) then true
  else false.

Definition _looks_past_tense_en (word : str) (catalog : gset (list N)) : bool :=
  let w := str_lower word in
  if bool_decide (length w ≤ 3)%nat then false
  else if endswith w (py "ied") && bool_decide (3 < length w)%nat
          && has catalog (drop_last 3 w ++ py "y") then true
  else if endswith w (py "ed") && bool_decide (3 < length w)%nat
          && has catalog (drop_last 2 w) then true
  else if endswith w (py "t") && bool_decide (3 < length w)%nat
          && has catalog (drop_last 1 w)
          && has catalog (drop_last 1 w ++ py "e") then true
  else false.

Definition _looks_plural_de (word : str) (catalog : gset (list N)) : bool :=
  let w := str_lower word in
  if bool_decide (length w ≤ 3)%nat then false
  else if endswith w (py "innen") && bool_decide (5 < length w)%nat
          && has catalog (drop_last 5 w ++ py "in") then true
  else if endswith w (py "er") && bool_decide (3 < length w)%nat
          && has catalog (drop_last 2 w) then true
  else if endswith w (py "en") && bool_decide (3 < length w)%nat
          && negb (endswith_any w [py "chen"; py "lein"])
          && has catalog (drop_last 2 w) then true
  else if endswith w (py "e") && bool_decide (3 < length w)%nat
          && has catalog (drop_last 1 w) then true
  else if endswith w (py "s") && bool_decide (3 < length w)%nat
          && has catalog (drop_last 1 w) then true
  else false.

Definition _looks_past_tense_de (word : str) (catalog : gset (list N)) : bool :=
  let w := str_lower word in
  if bool_decide (length w ≤ 3)%nat then false
  else if startswith w (py "ge") && bool_decide (4 < length w)%nat
          && endswith w (py "t")
          && has catalog (drop 2 (drop_last 1 w) ++ py "en") then true
  else if startswith w (py "ge") && bool_decide (4 < length w)%nat
          && endswith w (py "en")
          && has catalog (drop 2 w) then true
  else
    existsb (λ ending,
               endswith w ending && bool_decide (length ending + 1 < length w)%nat
               && has catalog (drop_last (length ending) w ++ py "en"))
            [py "te"; py "test"; py "tet"; py "ten"].

Definition _should_exclude_inflected (word lang : str) (catalog : gset (list N)) : bool :=
  if bool_decide (catalog = ∅) then false
  else if startswith lang (py "en")
  then _looks_plural_en word catalog || _looks_past_tense_en word catalog
  else if startswith lang (py "de")
  then _looks_plural_de word catalog || _looks_past_tense_de word catalog
  else false.

(** ** Validator cache and the solution pool of [play_gui] (main.py) *)

Definition cache_path (lang : str) (word_length : Z) : str :=
  let cache_dir := normpath (py "cache") in
  normpath (path_join cache_dir (lang ++ py "_" ++ py (pretty word_length) ++ py "_utf-8.txt")).

Definition load_cache (fs : FileSystem) (lang : str) (word_length : Z) : gset (list N) :=
  match fs_files fs !! cache_path lang word_length with
  | None => ∅
  | Some content => list_to_set (nonblank_lines content)
  end.

(** Returns [None] or raises what [open] or [write] raise. *)
Definition save_cache (fs : FileSystem) (lang : str) (word_length : Z)
    (words : gset (list N)) : result unit * FileSystem :=
  write_words (cache_path lang word_length) (sorted (elements words)) fs.

Definition read_solutions_file (fs : FileSystem) (solutions_path : str) : list str :=
  match fs_files fs !! normpath (_resource_path solutions_path) with
  | None => []
  | Some content => nonblank_lines content
  end.

Definition _filter_solutions_by_length (solutions : list str) (word_length : Z) : list str :=
  filter (λ w, len w = word_length) solutions.

(** [build_validator], as far as its [allowed_words] attribute and its
    effect on the cache go. *)
Definition build_validator (fs : FileSystem) (dict_folder : str) (solutions : list str)
    (lang : str) (word_length : Z) : result (gset (list N)) * FileSystem :=
  let from_solutions : gset (list N) :=
    list_to_set (_normalize_word <$> _filter_solutions_by_length solutions word_length) in
  let cached_words := load_cache fs lang word_length in
  if negb (bool_decide (cached_words = ∅)) then (Ok (cached_words ∪ from_solutions), fs)
  else
    match _collect_dictionary_word_data fs dict_folder word_length lang with
    | Raise e => (Raise e, fs)
    | Ok data =>
        let allowed_len := combined data in
        match save_cache fs lang word_length allowed_len with
        | (Raise e, fs) => (Raise e, fs)
        | (Ok _, fs) => (Ok (allowed_len ∪ from_solutions), fs)
        end
    end.

(** The part of [play_gui] that settles [all_solutions], the list from which
    [pick_unused_solution] and [pick_random_solution] draw the secret. *)
Definition play_gui_solutions (fs : FileSystem) (word_length : Z)
    (solutions_path dict_folder lang difficulty : str) (use_solution_filters : bool)
    : result (list str) * FileSystem :=
  let solutions_file_found := bool_decide (is_Some (fs_files fs !! solutions_path)) in
  let all_solutions := read_solutions_file fs solutions_path in
  match build_validator fs dict_folder all_solutions lang word_length with
  | (Raise e, fs) => (Raise e, fs)
  | (Ok allowed_words, fs) =>
      let difficulty := str_lower difficulty in
      let solutions_by_len := _filter_solutions_by_length all_solutions word_length in
      let after_build :=
        if negb solutions_file_found && negb (bool_decide (difficulty = py "chaos")) then
          match _load_or_build_filtered_solutions fs lang word_length dict_folder
                  use_solution_filters with
          | (Raise e, fs) => (Raise e, fs)
          | (Ok filtered_solutions, fs) =>
              if nonempty filtered_solutions
              then (Ok (filtered_solutions, filtered_solutions), fs)
              else (Ok (all_solutions, solutions_by_len), fs)
          end
        else (Ok (all_solutions, solutions_by_len), fs) in
      match after_build with
      | (Raise e, fs) => (Raise e, fs)
      | (Ok (all_solutions, solutions_by_len), fs) =>
          if nonempty solutions_by_len then (Ok all_solutions, fs)
          else
            let allowed_list :=
              if bool_decide (allowed_words = ∅) then [] else sorted (elements allowed_words) in
            let dictionary_candidates := _filter_solutions_by_length allowed_list word_length in
            if nonempty dictionary_candidates
            then (Ok (if nonempty allowed_list then allowed_list else dictionary_candidates), fs)
            else (Raise ValueError, fs)
      end
  end.

End Program.

(** ** A runtime for ASCII text

    It acts as CPython does on ASCII strings: case mapping, the letter and
    digit tests, NFC (the identity there), and POSIX paths without [.], [..]
    or doubled separators. Its regular-expression engine knows the patterns
    [.$] and [^.] and rejects the unterminated character sets [[$] and [^[];
    it has no profanity detector and no filter configuration files. *)

Definition ascii_lower (c : N) : N :=
  if ((65 <=? c) && (c <=? 90))%N then (c + 32)%N else c.

Definition ascii_isalpha (c : N) : bool :=
  (((65 <=? c) && (c <=? 90)) || ((97 <=? c) && (c <=? 122)))%N.

Definition ascii_isdigit (c : N) : bool := ((48 <=? c) && (c <=? 57))%N.

Definition ascii_re_search (pattern text : list N) : re_outcome :=
  if bool_decide (pattern = py ".$") then
    match reverse text with
    | [] => ReNotFound
    | c :: before =>
        if negb (c =? NL)%N then ReFound
        else match before with
             | [] => ReNotFound
             | d :: _ => if negb (d =? NL)%N then ReFound else ReNotFound
             end
    end
  else if bool_decide (pattern = py "[$") then ReError
  else ReNotFound.

Definition ascii_re_match (pattern text : list N) : re_outcome :=
  if bool_decide (pattern = py "^.") then
    match text with
    | [] => ReNotFound
    | c :: _ => if negb (c =? NL)%N then ReFound else ReNotFound
    end
  else if bool_decide (pattern = py "^[") then ReError
  else ReNotFound.

Definition posix_join (a b : list N) : list N := a ++ py "/" ++ b.

(** [os.path.splitext(name)[0]]: the name without its last extension. *)
Definition posix_splitext_root (name : list N) : list N :=
  match split_once 46%N (reverse name) with
  | Some (_, root_rev) =>
      if existsb (λ c, negb (c =? 46)%N) root_rev then reverse root_rev else name
  | None => name
  end.

Definition ascii_runtime : PyRuntime := {|
  str_lower := fmap ascii_lower;
  char_isalpha := ascii_isalpha;
  char_isdigit := ascii_isdigit;
  nfc := id;
  re_search := ascii_re_search;
  re_match := ascii_re_match;
  profanity := None;
  load_filter_config := λ _, {| prefixes := []; suffixes := []; blacklist := [];
                                blacklist_files := [] |};
  path_join := posix_join;
  normpath := id;
  splitext_root := posix_splitext_root;
  _resource_path := id;
|}.

(** [ascii_runtime] with the patterns that the condition made of a single
    backslash gives rise to, as CPython treats them: the backslash alone, and
    [^] followed by it, end in an unfinished escape and are rejected with
    [re.error]; the backslash followed by [$] is an escaped dollar sign, and
    searches for that character. *)
Definition BACKSLASH : N := 92%N.
Definition DOLLAR : N := 36%N.

Definition escape_re_search (pattern text : list N) : re_outcome :=
  if bool_decide (pattern = [BACKSLASH]) then ReError
  else if bool_decide (pattern = [BACKSLASH; DOLLAR]) then
    if bool_decide (DOLLAR ∈ text) then ReFound else ReNotFound
  else ascii_re_search pattern text.

Definition escape_re_match (pattern text : list N) : re_outcome :=
  if bool_decide (pattern = [BACKSLASH]) then ReError
  else if bool_decide (pattern = py "^" ++ [BACKSLASH]) then ReError
  else ascii_re_match pattern text.

Definition escape_runtime : PyRuntime := {|
  str_lower := fmap ascii_lower;
  char_isalpha := ascii_isalpha;
  char_isdigit := ascii_isdigit;
  nfc := id;
  re_search := escape_re_search;
  re_match := escape_re_match;
  profanity := None;
  load_filter_config := λ _, {| prefixes := []; suffixes := []; blacklist := [];
                                blacklist_files := [] |};
  path_join := posix_join;
  normpath := id;
  splitext_root := posix_splitext_root;
  _resource_path := id;
|}.


(** A word list with a count header, a flagged entry, a blank line and a
    later numeric line. *)
Definition header_fs : FileSystem := {|
  fs_files := {[ py "de.dic" :=
                 py "3" ++ [NL] ++ py "Abc/S" ++ [NL] ++ [NL] ++ py "42" ++ [NL] ]};
  fs_listdir := ∅;
  fs_unwritable := ∅;
|}.

(** The rule table of one suffix rule: flag [S], nothing stripped, [s]
    added, condition [.]. *)
Definition plural_rules : AffRules := {|
  sfx := {[ py "S" := [([], py "s", py ".")] ]};
  pfx := ∅;
|}.


(** An affix file whose only line is a rule without a condition field, and
    one whose only line carries the condition. *)
Definition four_field_fs : FileSystem := {|
  fs_files := {[ py "de.aff" := py "SFX A 0 en" ++ [NL] ]};
  fs_listdir := ∅;
  fs_unwritable := ∅;
|}.

Definition five_field_fs : FileSystem := {|
  fs_files := {[ py "de.aff" := py "SFX A 0 en ." ++ [NL] ]};
  fs_listdir := ∅;
  fs_unwritable := ∅;
|}.


(** A dictionary folder [dict] with the entries [cat] and [cats], no affix
    rules, no solutions file and no cache. *)
Definition cats_fs : FileSystem := {|
  fs_files := {[ py "dict/index.aff" := [];
                 py "dict/index.dic" := py "2" ++ [NL] ++ py "cat" ++ [NL] ++ py "cats" ++ [NL] ]};
  fs_listdir := {[ py "dict" := [py "index.aff"; py "index.dic"] ]};
  fs_unwritable := ∅;
|}.

(** ** Further functions of main.py *)

(** [_transliterate_german]: ä, ö, ü, ß become ae, oe, ue, ss. *)
Definition german_ascii (ch : N) : list N :=
  if (ch =? 228)%N then py "ae"
  else if (ch =? 246)%N then py "oe"
  else if (ch =? 252)%N then py "ue"
  else if (ch =? 223)%N then py "ss"
  else [ch].

Definition _transliterate_german (word : list N) : list N :=
  word ≫= german_ascii.

(** The characters ä, ö, ü, ß. *)
Definition german_special (ch : N) : bool :=
  ((ch =? 228) || (ch =? 246) || (ch =? 252) || (ch =? 223))%N.

(** [random.choice(seq)] on a non-empty list, for the number [r] the
    generator draws: the element at an index below [len(seq)]. *)
Definition random_choice (r : nat) (first : list N) (others : list (list N)) : list N :=
  default first ((first :: others) !! (r mod length (first :: others))%nat).

Definition pick_random_solution (r : nat) (candidates : list (list N)) (word_length : Z)
    : result (list N) :=
  match filter (λ w, len w = word_length) candidates with
  | [] => Raise ValueError
  | first :: others => Ok (random_choice r first others)
  end.

(** [used] is the module-level set [USED_SOLUTIONS]. *)
Definition pick_unused_solution (r : nat) (used : gset (list N))
    (candidates : list (list N)) (word_length : Z) : option (list N) :=
  match filter (λ w, len w = word_length ∧ w ∉ used) candidates with
  | [] => None
  | first :: others => Some (random_choice r first others)
  end.

(** The choice of the secret in [play_gui]:
    [chosen if chosen is not None else pick_random_solution(...)]. *)
Definition choose_secret (r1 r2 : nat) (used : gset (list N))
    (all_solutions : list (list N)) (word_length : Z) : result (list N) :=
  match pick_unused_solution r1 used all_solutions word_length with
  | Some chosen => Ok chosen
  | None => pick_random_solution r2 all_solutions word_length
  end.

Section Validator.
Context `{rt : PyRuntime}.

(** The closure [is_valid] that [build_validator] returns, over the set
    [allowed_len] it has built. *)
Definition is_valid (allowed_len : gset (list N)) (lang word : list N) : bool :=
  let wn := _normalize_word word in
  if bool_decide (wn ∈ allowed_len) then true
  else if bool_decide (str_lower lang = py "de")
  then bool_decide (_transliterate_german wn ∈ allowed_len)
  else false.

End Validator.

(** ** Notions used to state further properties *)

(** ["0"] as a strip or add field stands for the empty string. *)
Definition zero_empty (field : list N) : list N :=
  if bool_decide (field = py "0") then [] else field.

(** The rule a line of an affix file stands for, if it is a rule line:
    whether it is a suffix rule, its flag, and (strip, add, condition). *)
Definition aff_rule_of_line (line : list N)
    : option (bool * list N * (list N * list N * list N)) :=
  let stripped := strip line in
  if startswith stripped (py "#") then None
  else
    match split_ws stripped with
    | type_tag :: flag :: f3 :: f4 :: cond :: _ =>
        if (bool_decide (type_tag = py "SFX") || bool_decide (type_tag = py "PFX"))
           && negb (bool_decide (f3 = py "Y")) && negb (bool_decide (f3 = py "N"))
        then Some (bool_decide (type_tag = py "SFX"), flag, (zero_empty f3, zero_empty f4, cond))
        else None
    | _ => None
    end.

(** The rules of one kind and flag that the lines of a file stand for, in
    file order. *)
Definition rules_of_lines (is_suffix : bool) (flag : list N) (lines : list (list N))
    : list (list N * list N * list N) :=
  omap (λ line,
          '(is_suffix', flag', rule) ← aff_rule_of_line line;
          if bool_decide (is_suffix' = is_suffix ∧ flag' = flag) then Some rule else None)
       lines.

(** The suffix or the prefix table of a rule set. *)
Definition table (is_suffix : bool) (rules : AffRules)
    : gmap (list N) (list (list N * list N * list N)) :=
  if is_suffix then sfx rules else pfx rules.

(** A field as [str.split()] returns it: not empty, no whitespace. *)
Definition field_like (f : list N) : Prop :=
  f ≠ [] ∧ Forall (λ c, is_space c = false) f.

(** What every stored rule list looks like. *)
Definition stored_ok (flag : list N) (l : list (list N * list N * list N)) : Prop :=
  l ≠ [] ∧ field_like flag
  ∧ ∀ strip_ add cond, (strip_, add, cond) ∈ l →
      field_like cond ∧ strip_ ≠ py "0" ∧ add ≠ py "0"
      ∧ Forall (λ c, is_space c = false) strip_
      ∧ Forall (λ c, is_space c = false) add.



(** A string of the allowed alphabet, possibly followed by one newline. *)
Definition letters_then_newline (w : list N) : Prop :=
  ∃ body, body ≠ [] ∧ Forall (λ c, letter c = true) body ∧ (w = body ∨ w = body ++ [NL]).

(** Two entries and the German-style rules [A] (suffix [en]) and [B]
    (prefix [ge]). *)
Definition affix_rules : AffRules := {|
  sfx := {[ py "A" := [(py "e", py "en", py ".")] ]};
  pfx := {[ py "B" := [([], py "ge", py ".")] ]};
|}.

(** What [LanguageFilter.apply] demands of a word, spelled out. *)
Definition passes `{rt : PyRuntime} (config : FilterConfig) (w : list N) : Prop :=
  str_isalpha (str_lower w) = true
  ∧ _contains_profanity w = false
  ∧ (str_lower w ∉ blacklist config)
  ∧ (∀ prefix rest, prefix ∈ prefixes config → str_lower w ≠ (prefix ++ rest))
  ∧ (∀ suffix stem, suffix ∈ suffixes config → str_lower w ≠ (stem ++ suffix)).

(** A configuration that bans the word [darn] and the suffix [ly]. *)
Definition strict_config : FilterConfig := {|
  prefixes := []; suffixes := [py "ly"]; blacklist := [py "darn"]; blacklist_files := [];
|}.

(** The ASCII runtime with [strict_config] as its global configuration. *)
Definition strict_runtime : PyRuntime := {|
  str_lower := fmap ascii_lower;
  char_isalpha := ascii_isalpha;
  char_isdigit := ascii_isdigit;
  nfc := id;
  re_search := ascii_re_search;
  re_match := ascii_re_match;
  profanity := None;
  load_filter_config := λ archetype,
    if bool_decide (archetype = py "global") then strict_config
    else {| prefixes := []; suffixes := []; blacklist := []; blacklist_files := [] |};
  path_join := posix_join;
  normpath := id;
  splitext_root := posix_splitext_root;
  _resource_path := id;
|}.

(** An affix file with a header, two suffix rules under one flag, one of
    them stripping, a comment and a prefix rule. *)
Definition rules_fs : FileSystem := {|
  fs_files := {[ py "de.aff" :=
    py "# plural" ++ [NL] ++ py "SFX A Y 2" ++ [NL] ++ py "SFX A 0 en ." ++ [NL]
    ++ py "SFX A e en e" ++ [NL] ++ py "PFX B 0 un ." ++ [NL] ]};
  fs_listdir := ∅;
  fs_unwritable := ∅;
|}.

(** * Properties *)

Example score_abcde : score_guess (py "abcde") (py "abcde") = Some [G; G; G; G; G].
Proof. reflexivity. Qed.

Example score_aabbb : score_guess (py "aabbb") (py "ababa") = Some [G; Y; Y; G; B].
Proof. vm_compute. reflexivity. Qed.

Example score_short_guess : score_guess (py "ab") (py "abc") = None.
Proof. reflexivity. Qed.

(** ** Counting positions *)

Section Counting.
Implicit Types P Q R : nat → Prop.

Lemma count_positions_0 P `{∀ i, Decision (P i)} : count_positions 0 P = 0%nat.
Proof. reflexivity. Qed.

Lemma count_positions_S P `{∀ i, Decision (P i)} k :
  count_positions (S k) P = (count_positions k P + ind (P k))%nat.
Proof.
  unfold count_positions, ind. rewrite seq_S, filter_app, length_app. simpl.
  rewrite filter_cons, filter_nil. destruct (decide (P k)); reflexivity.
Qed.

Lemma count_positions_sum P Q R
    `{∀ i, Decision (P i)} `{∀ i, Decision (Q i)} `{∀ i, Decision (R i)} k :
  (∀ j, (j < k)%nat → ind (P j) = (ind (Q j) + ind (R j))%nat) →
  count_positions k P = (count_positions k Q + count_positions k R)%nat.
Proof.
  induction k as [|k IH]; intros Hk; [reflexivity|].
  rewrite !count_positions_S, IH by (intros; apply Hk; lia).
  rewrite (Hk k) by lia. lia.
Qed.

Lemma count_positions_ext P Q `{∀ i, Decision (P i)} `{∀ i, Decision (Q i)} k :
  (∀ j, (j < k)%nat → P j ↔ Q j) →
  count_positions k P = count_positions k Q.
Proof.
  induction k as [|k IH]; intros Hk; [reflexivity|].
  rewrite !count_positions_S, IH by (intros; apply Hk; lia).
  f_equal. unfold ind. specialize (Hk k ltac:(lia)).
  destruct (decide (P k)), (decide (Q k)); tauto.
Qed.

Lemma count_occurrences {A} `{EqDecision A} (a : A) (l : list A) :
  length (filter (λ x, x = a) l) = count_positions (length l) (λ j, l !! j = Some a).
Proof.
  induction l as [|x l IH] using rev_ind; [reflexivity|].
  rewrite filter_app, !length_app. simpl. rewrite Nat.add_1_r, count_positions_S.
  rewrite IH. f_equal.
  - apply count_positions_ext. intros j Hj. by rewrite lookup_app_l.
  - rewrite filter_cons, filter_nil. unfold ind.
    rewrite lookup_app_r, Nat.sub_diag by lia. simpl.
    destruct (decide (x = a)), (decide (Some x = Some a)); naive_solver.
Qed.
End Counting.

(** ** The two passes of [score_guess] *)

Lemma for_range_S {S} (body : S → nat → option S) (s : S) k :
  for_range (Datatypes.S k) body s = for_range k body s ≫= λ s', body s' k.
Proof. unfold for_range. rewrite seq_S, foldl_app. reflexivity. Qed.

Lemma get0_insert (m : gmap N Z) k v c :
  get0 (<[k := v]> m) c = if decide (k = c) then v else get0 m c.
Proof.
  unfold get0. destruct (decide (k = c)) as [->|].
  - by rewrite lookup_insert_eq.
  - by rewrite lookup_insert_ne.
Qed.

Section Scoring.
Variables guess target : list N.
Hypothesis same_length : length guess = length target.

Lemma pass1_invariant k :
  (k ≤ length target)%nat →
  ∃ res rem,
    for_range k (score_pass1 guess target) (replicate (length target) B, ∅)
      = Some (res, rem)
    ∧ length res = length target
    ∧ (∀ j g t, guess !! j = Some g → target !! j = Some t →
         res !! j = Some (if decide ((j < k)%nat ∧ g = t) then G else B))
    ∧ (∀ c, get0 rem c =
         Z.of_nat (count_positions k (λ j, target !! j = Some c ∧ guess !! j ≠ Some c))).
Proof.
  induction k as [|k IH]; intros Hk.
  - exists (replicate (length target) B), ∅. repeat split.
    + by rewrite length_replicate.
    + intros j g t Hg Ht. apply lookup_lt_Some in Ht.
      rewrite lookup_replicate_2 by done.
      destruct (decide _) as [[? _]|]; [lia|done].
  - destruct IH as (res & rem & Hrun & Hlen & Hres & Hrem); [lia|].
    rewrite for_range_S, Hrun. simpl.
    destruct (lookup_lt_is_Some_2 guess k) as [g Hg]; [lia|].
    destruct (lookup_lt_is_Some_2 target k) as [t Ht]; [lia|].
    unfold score_pass1. rewrite Hg, Ht. simpl.
    destruct (decide (g = t)) as [->|Hne].
    + eexists _, _. split; [reflexivity|]. simpl. repeat split.
      * by rewrite length_insert.
      * intros j g' t' Hg' Ht'. destruct (decide (j = k)) as [->|Hjk].
        -- rewrite list_lookup_insert_eq by lia. simplify_eq.
           destruct (decide _) as [|Hn]; [done|]. exfalso. apply Hn. split; [lia|done].
        -- rewrite list_lookup_insert_ne by done. rewrite (Hres j g' t') by done.
           destruct (decide _) as [[? ?]|Hn1], (decide _) as [[? ?]|Hn2];
             try done; exfalso; [apply Hn2|apply Hn1]; split; try done; lia.
      * intros c. rewrite Hrem, count_positions_S. unfold ind.
        destruct (decide _) as [[H1 H2]|]; [|f_equal; lia].
        exfalso. apply H2. congruence.
    + eexists _, _. split; [reflexivity|]. simpl. repeat split.
      * done.
      * intros j g' t' Hg' Ht'. rewrite (Hres j g' t') by done.
        destruct (decide (j = k)) as [->|Hjk].
        -- simplify_eq.
           destruct (decide _) as [[? ?]|], (decide _) as [[? ?]|]; try done; lia.
        -- destruct (decide _) as [[? ?]|Hn1], (decide _) as [[? ?]|Hn2];
             try done; exfalso; [apply Hn2|apply Hn1]; split; try done; lia.
      * intros c. rewrite get0_insert, count_positions_S, !Hrem. unfold ind.
        destruct (decide (t = c)) as [->|Htc].
        -- destruct (decide _) as [|Hn]; [lia|].
           exfalso. apply Hn. split; [done|]. congruence.
        -- destruct (decide _) as [[H1 _]|]; [congruence|]. f_equal. lia.
Qed.

Lemma pass2_invariant res1 rem1 k :
  length res1 = length target →
  (∀ j, res1 !! j ≠ Some Y) →
  (∀ c, 0 ≤ get0 rem1 c) →
  (k ≤ length target)%nat →
  ∃ res rem,
    for_range k (score_pass2 guess) (res1, rem1) = Some (res, rem)
    ∧ length res = length target
    ∧ (∀ j, (k ≤ j)%nat → res !! j = res1 !! j)
    ∧ (∀ j, res !! j = Some G ↔ res1 !! j = Some G)
    ∧ (∀ c, Z.of_nat (count_positions k (λ j, res !! j = Some Y ∧ guess !! j = Some c))
            + get0 rem c = get0 rem1 c)
    ∧ (∀ c, 0 ≤ get0 rem c).
Proof.
  intros Hlen1 HnoY Hpos1. induction k as [|k IH]; intros Hk.
  - exists res1, rem1. split_and!; try done; intros c; simpl; lia.
  - destruct IH as (res & rem & Hrun & Hlen & Hrest & HG & Hcnt & Hpos); [lia|].
    rewrite for_range_S, Hrun. simpl.
    destruct (lookup_lt_is_Some_2 res k) as [r Hr]; [lia|].
    destruct (lookup_lt_is_Some_2 guess k) as [g Hg]; [lia|].
    assert (HrY : r ≠ Y).
    { intros ->. apply (HnoY k). by rewrite <- Hrest, Hr by lia. }
    unfold score_pass2. simpl. rewrite Hr. simpl.
    destruct (decide (r = G)) as [->|HrG]; [|rewrite Hg; simpl;
      destruct (decide (0 < get0 rem g)) as [Hgt|Hle]].
    + exists res, rem. split_and!; try done.
      * intros j Hj. apply Hrest. lia.
      * intros c. rewrite count_positions_S, <- Hcnt. unfold ind.
        destruct (decide _) as [[H1 _]|]; [congruence|]. lia.
    + eexists _, _. split; [reflexivity|]. simpl. split_and!.
      * by rewrite length_insert.
      * intros j Hj. rewrite list_lookup_insert_ne by lia. apply Hrest. lia.
      * intros j. destruct (decide (j = k)) as [->|Hjk].
        -- rewrite list_lookup_insert_eq by lia. split; [done|].
           intros H1. exfalso. apply HrG.
           rewrite <- Hrest in H1 by lia. congruence.
        -- rewrite list_lookup_insert_ne by done. apply HG.
      * intros c. rewrite get0_insert, count_positions_S, <- Hcnt.
        rewrite (count_positions_ext _
                   (λ j, res !! j = Some Y ∧ guess !! j = Some c)).
        2:{ intros j Hj. by rewrite list_lookup_insert_ne by lia. }
        unfold ind. rewrite list_lookup_insert_eq by lia.
        destruct (decide (g = c)) as [->|Hgc].
        -- destruct (decide _) as [|Hn]; [lia|]. exfalso. by apply Hn.
        -- destruct (decide _) as [[_ H2]|]; [congruence|]. lia.
      * intros c. rewrite get0_insert. destruct (decide (g = c)); [lia|apply Hpos].
    + exists res, rem. split_and!; try done.
      * intros j Hj. apply Hrest. lia.
      * intros c. rewrite count_positions_S, <- Hcnt. unfold ind.
        destruct (decide _) as [[H1 _]|]; [congruence|]. lia.
Qed.

End Scoring.

(** C1. For equal-length [guess] and [target], [score_guess] returns a marker
    list of the common length; its number of ['G'] markers is the number of
    positions where the two words agree; and for every letter [c], the number
    of positions with a marker other than ['B'] whose guessed letter is [c] is
    at most the number of occurrences of [c] in [target]. *)
Theorem score_guess_markers (guess target : list N) :
  length guess = length target →
  ∃ markers,
    score_guess guess target = Some markers
    ∧ length markers = length target
    ∧ length (filter (λ m, m = G) markers)
      = count_positions (length target) (λ i, guess !! i = target !! i)
    ∧ ∀ c, (count_positions (length target)
              (λ i, markers !! i ≠ Some B ∧ guess !! i = Some c)
            ≤ length (filter (λ t, t = c) target))%nat.
Proof.
  intros Hlen.
  destruct (pass1_invariant guess target Hlen (length target))
    as (res1 & rem1 & Hrun1 & Hlen1 & Hres1 & Hrem1); [lia|].
  assert (HnoY : ∀ j, res1 !! j ≠ Some Y).
  { intros j Hj. assert (Hlt : (j < length target)%nat).
    { apply lookup_lt_Some in Hj. lia. }
    destruct (lookup_lt_is_Some_2 guess j) as [g Hg]; [lia|].
    destruct (lookup_lt_is_Some_2 target j) as [t Ht]; [lia|].
    rewrite (Hres1 j g t) in Hj by done. by destruct (decide _). }
  assert (Hpos1 : ∀ c, 0 ≤ get0 rem1 c) by (intros c; rewrite Hrem1; lia).
  destruct (pass2_invariant guess target Hlen res1 rem1 (length target))
    as (res & rem & Hrun2 & Hlen2 & _ & HG & Hcnt & Hpos); [done..|lia|].
  exists res. unfold score_guess. rewrite Hrun1. simpl. rewrite Hrun2. simpl.
  split_and!; [done|done| |].
  - rewrite count_occurrences, Hlen2. apply count_positions_ext.
    intros j Hj. rewrite HG.
    destruct (lookup_lt_is_Some_2 guess j) as [g Hg]; [lia|].
    destruct (lookup_lt_is_Some_2 target j) as [t Ht]; [lia|].
    rewrite (Hres1 j g t), Hg, Ht by done.
    destruct (decide _) as [[_ ->]|Hn]; [done|].
    split; [done|]. intros [= ->]. exfalso. by apply Hn.
  - intros c. rewrite count_occurrences.
    rewrite (count_positions_sum _
               (λ j, res !! j = Some G ∧ guess !! j = Some c)
               (λ j, res !! j = Some Y ∧ guess !! j = Some c)).
    2:{ intros j Hj. unfold ind.
        destruct (lookup_lt_is_Some_2 res j) as [m Hm]; [lia|]. rewrite Hm.
        destruct m; repeat case_decide; intuition (try congruence; try lia). }
    rewrite (count_positions_sum (λ j, target !! j = Some c)
               (λ j, res !! j = Some G ∧ guess !! j = Some c)
               (λ j, target !! j = Some c ∧ guess !! j ≠ Some c)).
    2:{ intros j Hj. unfold ind.
        destruct (lookup_lt_is_Some_2 guess j) as [g Hg]; [lia|].
        destruct (lookup_lt_is_Some_2 target j) as [t Ht]; [lia|].
        pose proof (HG j) as HGj. rewrite (Hres1 j g t) in HGj by done.
        rewrite Hg, Ht.
        destruct (decide ((j < length target)%nat ∧ g = t)) as [[_ ->]|Hn];
          repeat case_decide; intuition (try congruence; try lia). }
    specialize (Hcnt c). specialize (Hpos c). rewrite Hrem1 in Hcnt. lia.
Qed.

(** Witness for C1: the guess ["aabbb"] against the target ["ababa"]. *)
Lemma score_guess_markers_witness :
  ∃ markers,
    score_guess (py "aabbb") (py "ababa") = Some markers
    ∧ length markers = length (py "ababa")
    ∧ length (filter (λ m, m = G) markers)
      = count_positions (length (py "ababa")) (λ i, py "aabbb" !! i = py "ababa" !! i)
    ∧ ∀ c, (count_positions (length (py "ababa"))
              (λ i, markers !! i ≠ Some B ∧ py "aabbb" !! i = Some c)
            ≤ length (filter (λ t, t = c) (py "ababa")))%nat.
Proof. apply (score_guess_markers (py "aabbb") (py "ababa")). reflexivity. Defined.

(** ** [sorted] and [dict.fromkeys] *)

Lemma str_leb_refl a : str_leb a a = true.
Proof.
  induction a as [|x a IH]; simpl; [done|].
  rewrite N.eqb_refl, IH. by rewrite orb_true_r.
Qed.

Lemma str_leb_total a b : str_leb a b = true ∨ str_leb b a = true.
Proof.
  revert b. induction a as [|x a IH]; intros [|y b]; simpl; auto.
  destruct (N.ltb_spec x y), (N.ltb_spec y x), (N.eqb_spec x y), (N.eqb_spec y x);
    simpl; auto; lia.
Qed.

Lemma str_leb_trans a b c :
  str_leb a b = true → str_leb b c = true → str_leb a c = true.
Proof.
  revert b c. induction a as [|x a IH]; intros [|y b] [|z c]; simpl; try done.
  destruct (N.ltb_spec x y), (N.ltb_spec y z), (N.ltb_spec x z),
    (N.eqb_spec x y), (N.eqb_spec y z), (N.eqb_spec x z);
    simpl; try done; try lia; eauto.
Qed.

Lemma str_leb_antisym a b :
  str_leb a b = true → str_leb b a = true → a = b.
Proof.
  revert b. induction a as [|x a IH]; intros [|y b]; simpl; try done.
  destruct (N.ltb_spec x y), (N.ltb_spec y x), (N.eqb_spec x y), (N.eqb_spec y x);
    simpl; try done; try lia.
  intros. f_equal; auto.
Qed.

Global Instance str_le_total : Total str_le.
Proof. intros a b. apply str_leb_total. Qed.
Global Instance str_le_trans : Transitive str_le.
Proof. intros a b c. apply str_leb_trans. Qed.
Global Instance str_le_antisym : AntiSymm (=) str_le.
Proof. intros a b. apply str_leb_antisym. Qed.

Lemma sorted_Sorted l : Sorted str_le (sorted l).
Proof. apply (Sorted_merge_sort str_le). Qed.

Lemma sorted_Permutation l : sorted l ≡ₚ l.
Proof. apply merge_sort_Permutation. Qed.

(** Sorting an ordered list changes nothing. *)
Lemma sorted_id l : Sorted str_le l → sorted l = l.
Proof.
  intros Hl. apply (Sorted_unique str_le); [apply sorted_Sorted|done|].
  apply sorted_Permutation.
Qed.

Lemma dict_fromkeys_subseteq seen words : dict_fromkeys seen words ⊆ words.
Proof.
  revert seen. induction words as [|w words IH]; intros seen x; simpl; [done|].
  case_bool_decide.
  - intros Hx%IH. by apply list_elem_of_further.
  - intros [->|Hx%IH]%elem_of_cons; [apply list_elem_of_here|by apply list_elem_of_further].
Qed.

Lemma dict_fromkeys_not_seen seen words w :
  w ∈ dict_fromkeys seen words → w ∉ seen.
Proof.
  revert seen. induction words as [|x words IH]; intros seen; simpl.
  - by intros ?%elem_of_nil.
  - case_bool_decide; [apply IH|].
    intros [->|Hw]%elem_of_cons; [done|].
    apply IH in Hw. set_solver.
Qed.

Lemma dict_fromkeys_NoDup seen words : NoDup (dict_fromkeys seen words).
Proof.
  revert seen. induction words as [|w words IH]; intros seen; simpl.
  - constructor.
  - case_bool_decide; [apply IH|]. constructor; [|apply IH].
    intros Hw%dict_fromkeys_not_seen. set_solver.
Qed.

Lemma dict_fromkeys_id seen words :
  NoDup words → (∀ w, w ∈ words → w ∉ seen) → dict_fromkeys seen words = words.
Proof.
  revert seen. induction words as [|w words IH]; intros seen Hnd Hseen; simpl; [done|].
  apply NoDup_cons in Hnd as [Hw Hnd].
  rewrite bool_decide_eq_false_2 by (apply Hseen; set_solver).
  f_equal. apply IH; [done|].
  intros x Hx [->|Hin]%elem_of_cons; [done|]. apply (Hseen x); set_solver.
Qed.

Lemma sorted_unique_Sorted words : Sorted str_le (sorted_unique words).
Proof. apply sorted_Sorted. Qed.

Lemma sorted_unique_NoDup words : NoDup (sorted_unique words).
Proof.
  unfold sorted_unique. rewrite sorted_Permutation. apply dict_fromkeys_NoDup.
Qed.

Lemma sorted_unique_id words :
  Sorted str_le words → NoDup words → sorted_unique words = words.
Proof.
  intros Hs Hnd. unfold sorted_unique.
  rewrite dict_fromkeys_id by (done || set_solver). by apply sorted_id.
Qed.

(** ** The filter loop *)

Section Filtering.
Context `{rt : PyRuntime}.
Variable config : FilterConfig.
Abbreviation apply_invariant := (apply_invariant config).

Lemma apply_step_invariant st word :
  apply_invariant st → apply_invariant (apply_step config st word).
Proof.
  intros (Hacc & Hnd & Hseen). unfold apply_step.
  destruct (acceptable config word) eqn:Hw; simpl; [|done].
  case_bool_decide as Hin; [done|]. split_and!; simpl.
  - apply Forall_app. split; [done|]. by constructor.
  - rewrite fmap_app. apply NoDup_app. split_and!; [done| |apply NoDup_singleton].
    intros x Hx ->%list_elem_of_singleton. apply Hin, Hseen, Hx.
  - intros x. rewrite fmap_app, elem_of_union, elem_of_app, Hseen. simpl.
    by rewrite elem_of_singleton, list_elem_of_singleton.
Qed.

Lemma apply_loop_invariant st words :
  apply_invariant st → apply_invariant (foldl (apply_step config) st words).
Proof.
  revert st. induction words as [|w words IH]; intros st Hst; simpl; [done|].
  by apply IH, apply_step_invariant.
Qed.

Lemma apply_loop_elem_of st words w :
  w ∈ (foldl (apply_step config) st words).1 → w ∈ st.1 ∨ w ∈ words.
Proof.
  revert st. induction words as [|x words IH]; intros st; simpl; [auto|].
  intros [Hw|Hw]%IH; [|right; by apply list_elem_of_further].
  unfold apply_step in Hw. destruct (acceptable config x); simpl in Hw; [|auto].
  case_bool_decide; [auto|]. simpl in Hw.
  apply elem_of_app in Hw as [?| ->%list_elem_of_singleton]; [auto|].
  right. apply list_elem_of_here.
Qed.

(** On a list of acceptable words with pairwise distinct lower-case forms,
    none of them seen before, the loop keeps every word. *)
Lemma apply_loop_keeps_all st words :
  apply_invariant st →
  Forall (λ w, acceptable config w = true) words →
  NoDup (str_lower <$> words) →
  (∀ w, w ∈ words → str_lower w ∉ st.2) →
  (foldl (apply_step config) st words).1 = st.1 ++ words.
Proof.
  revert st. induction words as [|w words IH]; intros st Hst Hacc Hnd Hfresh; simpl.
  - by rewrite app_nil_r.
  - apply Forall_cons in Hacc as [Hw Hacc]. rewrite fmap_cons in Hnd.
    apply NoDup_cons in Hnd as [Hwnd Hnd].
    assert (Hstep : apply_step config st w = (st.1 ++ [w], st.2 ∪ {[ str_lower w ]})).
    { unfold apply_step. rewrite Hw. simpl.
      rewrite bool_decide_eq_false_2; [done|]. apply Hfresh, list_elem_of_here. }
    rewrite IH; [|by apply apply_step_invariant|done..|].
    + rewrite Hstep. simpl. by rewrite <- app_assoc.
    + rewrite Hstep. simpl. intros x Hx [Hin|Heq%elem_of_singleton]%elem_of_union.
      * by apply (Hfresh x); [apply list_elem_of_further|].
      * apply Hwnd. rewrite <- Heq. by apply list_elem_of_fmap_2.
Qed.

Lemma apply_invariant_init : apply_invariant ([], ∅).
Proof.
  split_and!; simpl; [constructor|constructor|].
  intros x. rewrite elem_of_empty. split; [done|]. by intros ?%elem_of_nil.
Qed.

Lemma LanguageFilter_apply_Sorted words cat :
  Sorted str_le (LanguageFilter_apply config words cat).
Proof. apply sorted_Sorted. Qed.

Lemma LanguageFilter_apply_acceptable words cat :
  Forall (λ w, acceptable config w = true) (LanguageFilter_apply config words cat).
Proof.
  unfold LanguageFilter_apply. rewrite sorted_Permutation.
  apply (apply_loop_invariant ([], ∅) words apply_invariant_init).
Qed.

Lemma LanguageFilter_apply_NoDup_lower words cat :
  NoDup (str_lower <$> LanguageFilter_apply config words cat).
Proof.
  unfold LanguageFilter_apply. rewrite sorted_Permutation.
  apply (apply_loop_invariant ([], ∅) words apply_invariant_init).
Qed.

Lemma LanguageFilter_apply_elem_of words cat w :
  w ∈ LanguageFilter_apply config words cat → w ∈ words.
Proof.
  unfold LanguageFilter_apply. rewrite sorted_Permutation.
  intros [Hw|Hw]%apply_loop_elem_of; [|done]. by apply elem_of_nil in Hw.
Qed.

(** A sorted list of acceptable words with distinct lower-case forms is a
    fixed point of [LanguageFilter.apply]. *)
Lemma LanguageFilter_apply_id words cat :
  Sorted str_le words →
  Forall (λ w, acceptable config w = true) words →
  NoDup (str_lower <$> words) →
  LanguageFilter_apply config words cat = words.
Proof.
  intros Hs Hacc Hnd. unfold LanguageFilter_apply.
  rewrite apply_loop_keeps_all; simpl; [by apply sorted_id|apply apply_invariant_init|done..|].
  intros w _. apply not_elem_of_empty.
Qed.

End Filtering.

(** ** Idempotence of the filter pipeline *)

Section Pipeline.
Context `{rt : PyRuntime}.

Lemma LanguageFilter_apply_nil config cat : LanguageFilter_apply config [] cat = [].
Proof. reflexivity. Qed.

Lemma NoDup_lower (l : list (list N)) : NoDup (str_lower <$> l) → NoDup l.
Proof. apply NoDup_fmap_1. Qed.

(** C5. [filter_candidates] is idempotent: filtering its own output again,
    with the same language code, catalog and [enable_filters] flag, returns
    that output unchanged. *)
Theorem filter_candidates_idempotent (ws : list (list N)) (lang : list N)
    (cat : gset (list N)) (e : bool) :
  filter_candidates (filter_candidates ws lang cat e) lang cat e
  = filter_candidates ws lang cat e.
Proof.
  unfold filter_candidates at 2 3. destruct e; simpl.
  - set (glob := _get_filter_for_archetype (py "global")).
    set (x1 := if nonempty (sorted_unique ws)
               then LanguageFilter_apply glob (sorted_unique ws) cat
               else sorted_unique ws).
    assert (Hx1 : x1 = LanguageFilter_apply glob (sorted_unique ws) cat).
    { subst x1. by destruct (sorted_unique ws). }
    assert (Hfix : ∀ out,
      Sorted str_le out → NoDup (str_lower <$> out) →
      Forall (λ w, acceptable glob w = true) out →
      (∀ a, _language_archetype lang = Some a →
            Forall (λ w, acceptable (_get_filter_for_archetype a) w = true) out) →
      filter_candidates out lang cat true = out).
    { intros out Hs Hnd Hg Ha. unfold filter_candidates. simpl. fold glob.
      rewrite sorted_unique_id by eauto using NoDup_lower.
      assert (Hout : (if nonempty out then LanguageFilter_apply glob out cat else out) = out).
      { destruct out; [done|]. by apply LanguageFilter_apply_id. }
      rewrite Hout. destruct (_language_archetype lang) as [a|]; [|done].
      apply LanguageFilter_apply_id; auto. }
    destruct (_language_archetype lang) as [a|] eqn:Harch.
    + apply Hfix.
      * apply LanguageFilter_apply_Sorted.
      * apply LanguageFilter_apply_NoDup_lower.
      * apply Forall_forall. intros w Hw%LanguageFilter_apply_elem_of.
        rewrite Hx1 in Hw. revert w Hw. apply Forall_forall.
        apply LanguageFilter_apply_acceptable.
      * intros a' [= <-]. apply LanguageFilter_apply_acceptable.
    + rewrite Hx1. apply Hfix.
      * apply LanguageFilter_apply_Sorted.
      * apply LanguageFilter_apply_NoDup_lower.
      * apply LanguageFilter_apply_acceptable.
      * done.
  - unfold filter_candidates. simpl.
    apply sorted_unique_id; [apply sorted_unique_Sorted|apply sorted_unique_NoDup].
Qed.

End Pipeline.

(** ** Reading back what was written *)

Lemma universal_newlines_id s :
  Forall (λ c, c ≠ CR) s → universal_newlines s = s.
Proof.
  induction 1 as [|c s Hc _ IH]; [done|]. simpl.
  destruct (N.eqb_spec c CR); [done|]. by rewrite IH.
Qed.

Lemma split_keepends_line w rest :
  Forall (λ c, c ≠ NL) w →
  split_keepends (w ++ NL :: rest) = (w ++ [NL]) :: split_keepends rest.
Proof.
  induction 1 as [|c w Hc _ IH]; simpl.
  - done.
  - destruct (N.eqb_spec c NL); [done|]. by rewrite IH.
Qed.

Lemma split_keepends_lines (ws : list (list N)) :
  Forall (Forall (λ c, c ≠ NL)) ws →
  split_keepends (concat ((λ w, w ++ [NL]) <$> ws)) = (λ w, w ++ [NL]) <$> ws.
Proof.
  induction 1 as [|w ws Hw _ IH]; [done|].
  rewrite fmap_cons, concat_cons, <- app_assoc. simpl ([NL] ++ _).
  by rewrite split_keepends_line, IH.
Qed.

Lemma lstrip_id s : Forall (λ c, is_space c = false) s → lstrip s = s.
Proof. destruct 1 as [|c s Hc _]; [done|]. simpl. by rewrite Hc. Qed.

Lemma strip_line w :
  Forall (λ c, is_space c = false) w → strip (w ++ [NL]) = w.
Proof.
  intros Hw. destruct Hw as [|c w Hc Hw]; [done|].
  unfold strip, rstrip.
  assert (Hl : lstrip ((c :: w) ++ [NL]) = (c :: w) ++ [NL]).
  { simpl. by rewrite Hc. }
  rewrite Hl, reverse_app. simpl.
  rewrite lstrip_id by (by apply Forall_reverse; constructor).
  apply reverse_involutive.
Qed.

Lemma is_space_NL c : is_space c = false → c ≠ NL.
Proof. by intros Hc ->. Qed.

Lemma is_space_CR c : is_space c = false → c ≠ CR.
Proof. by intros Hc ->. Qed.

Lemma read_back (ws : list (list N)) :
  Forall plain_word ws →
  filter (λ line, nonempty line = true)
    (strip <$> text_lines (concat ((λ w, w ++ [NL]) <$> ws))) = ws.
Proof.
  intros Hws. unfold text_lines.
  rewrite universal_newlines_id.
  2:{ apply Forall_concat, Forall_fmap. eapply Forall_impl; [exact Hws|].
      intros w [_ Hw]. simpl. apply Forall_app. split.
      - eapply Forall_impl; [exact Hw|]. apply is_space_CR.
      - by constructor. }
  rewrite split_keepends_lines.
  2:{ eapply Forall_impl; [exact Hws|]. intros w [_ Hw].
      eapply Forall_impl; [exact Hw|]. apply is_space_NL. }
  rewrite <- list_fmap_compose.
  induction Hws as [|w ws [Hne Hw] _ IH]; [done|].
  rewrite fmap_cons, filter_cons. simpl. rewrite strip_line by done.
  rewrite IH. by destruct w.
Qed.

(** ** Writing a word list *)

Lemma written_before_error_all (words : list (list N)) :
  forallb encodable words = true → written_before_error words = words.
Proof.
  induction words as [|w words IH]; [done|]. simpl.
  intros [Hw Hrest]%andb_true_iff. rewrite Hw. by rewrite IH.
Qed.


(** The write succeeds exactly when the file can be opened for writing and
    every word can be encoded, and then the file holds one line per word. *)
Lemma write_words_Ok (path : list N) (words : list (list N)) (fs fs' : FileSystem) (u : ()) :
  write_words path words fs = (Ok u, fs')
  ↔ (path ∉ fs_unwritable fs) ∧ forallb encodable words = true
    ∧ fs' = fs_write path (concat ((λ word, word ++ [NL]) <$> words)) fs.
Proof.
  unfold write_words. destruct u. case_bool_decide as Hpath.
  - split; [done|]. by intros [? _].
  - destruct (forallb encodable words) eqn:Henc.
    + rewrite written_before_error_all by done. split.
      * by intros [= <-].
      * by intros (_ & _ & ->).
    + split; [done|]. by intros (_ & ? & _).
Qed.

Section Cache.
Context `{rt : PyRuntime}.


End Cache.


(** ** Dictionary entries *)

Lemma split_once_None sep s :
  Forall (λ c, c ≠ sep) s → split_once sep s = None.
Proof.
  induction 1 as [|c s Hc _ IH]; [done|]. simpl.
  destruct (N.eqb_spec c sep); [done|]. by rewrite IH.
Qed.

Section Dictionary.
Context `{rt : PyRuntime}.

Lemma parse_dic_lines_later lines :
  parse_dic_lines false lines
  = dic_entry <$> filter (λ s, nonempty s = true) (strip <$> lines).
Proof.
  induction lines as [|line lines IH]; [done|].
  rewrite fmap_cons, filter_cons. cbn [parse_dic_lines].
  destruct (strip line) as [|c stripped]; simpl; [done|].
  by rewrite IH.
Qed.

Lemma parse_dic_lines_first lines :
  parse_dic_lines true lines
  = match filter (λ s, nonempty s = true) (strip <$> lines) with
    | [] => []
    | first :: later =>
        (if str_isdigit first then [] else [dic_entry first]) ++ (dic_entry <$> later)
    end.
Proof.
  induction lines as [|line lines IH]; [done|].
  rewrite fmap_cons, filter_cons. cbn [parse_dic_lines].
  destruct (strip line) as [|c stripped] eqn:Hs; simpl; [done|].
  rewrite parse_dic_lines_later. by destruct (str_isdigit (c :: stripped)).
Qed.

(** A line of digits has no flags, provided ["/"] is not a digit. *)
Lemma dic_entry_numeric s :
  char_isdigit SLASH = false → str_isdigit s = true →
  dic_entry s = (_normalize_word s, []).
Proof.
  intros Hslash [_ Hs]%andb_true_iff. unfold dic_entry.
  rewrite split_once_None; [done|].
  apply Forall_forall. intros c Hc ->.
  rewrite forallb_forall in Hs. specialize (Hs SLASH).
  rewrite Hslash in Hs. discriminate Hs. by apply list_elem_of_In.
Qed.

(** C10. [parse_dic_entries] drops a purely numeric line only when it is the
    first non-blank line of the file. Every later non-blank line becomes an
    entry, split at its first ["/"]; a purely numeric later line becomes the
    entry with its normalised text as base and empty flags, and is in the
    returned list. *)
Theorem parse_dic_entries_count_header (fs : FileSystem) (dic_path content : list N) :
  fs_files fs !! dic_path = Some content →
  char_isdigit SLASH = false →
  ∃ entries,
    parse_dic_entries fs dic_path = Ok entries
    ∧ match nonblank_lines content with
      | [] => entries = []
      | first :: later =>
          entries = (if str_isdigit first then [] else [dic_entry first])
                    ++ (dic_entry <$> later)
          ∧ ∀ s, s ∈ later → str_isdigit s = true →
                 dic_entry s = (_normalize_word s, [])
                 ∧ (_normalize_word s, []) ∈ entries
      end.
Proof.
  intros Hfile Hslash. unfold parse_dic_entries. rewrite Hfile.
  eexists. split; [reflexivity|]. rewrite parse_dic_lines_first.
  unfold nonblank_lines.
  destruct (filter _ (strip <$> text_lines content)) as [|first later]; [done|].
  split; [done|]. intros s Hs Hdigit.
  pose proof (dic_entry_numeric s Hslash Hdigit) as Hentry.
  split; [done|]. apply elem_of_app. right.
  rewrite <- Hentry. by apply list_elem_of_fmap_2.
Qed.

End Dictionary.

(** Witness for C10: the count header [3] is dropped, the later line [42]
    is an entry. *)
Lemma parse_dic_entries_count_header_witness :
  parse_dic_entries (rt := ascii_runtime) header_fs (py "de.dic")
  = Ok [(py "abc", py "S"); (py "42", [])].
Proof.
  destruct (parse_dic_entries_count_header (rt := ascii_runtime) header_fs (py "de.dic")
              (py "3" ++ [NL] ++ py "Abc/S" ++ [NL] ++ [NL] ++ py "42" ++ [NL]))
    as (entries & -> & Hentries).
  - reflexivity.
  - reflexivity.
  - f_equal. vm_compute in Hentries. apply Hentries.
Defined.

(** ** Affix expansion *)

Section Expansion.
Context `{rt : PyRuntime}.

(** C3, amended. When the pattern built from the condition of a rule,
    [cond + "$"] for a suffix rule and ["^" + cond] for a prefix rule, is
    rejected with [re.error], the condition is treated as satisfied: the rule
    yields exactly what the blocked-suffix check, the strip check and the
    length and alphabet checks let through, as if it had no condition, and
    the [re.error] does not leave the loop body. *)
Theorem regex_error_fails_open (base : list N) (word_length : Z)
    (blocked : option (gset (list N))) (strip_ add cond : list N) :
  ((∀ stem, re_search (cond ++ py "$") stem = ReError) →
     sfx_step base word_length blocked (strip_, add, cond)
     = (if suffix_blocked blocked add then None
        else stem ← sfx_stem base strip_; kept word_length (stem ++ add)))
  ∧ ((∀ stem, re_match (py "^" ++ cond) stem = ReError) →
     pfx_step base word_length (strip_, add, cond)
     = (stem ← pfx_stem base strip_; kept word_length (add ++ stem))).
Proof.
  split.
  - intros Herr. unfold sfx_step. destruct (suffix_blocked blocked add); [done|].
    destruct (sfx_stem base strip_) as [stem|]; simpl; [|done].
    rewrite Herr. unfold cond_fails. by rewrite andb_false_r.
  - intros Herr. unfold pfx_step.
    destruct (pfx_stem base strip_) as [stem|]; simpl; [|done].
    rewrite Herr. unfold cond_fails. by rewrite andb_false_r.
Qed.

End Expansion.

(** Witness for C3: the unterminated character set ["["] as condition of a
    rule that turns [mach] into [machst], and of one that turns it into
    [gemach]. *)
Lemma regex_error_fails_open_witness :
  sfx_step (rt := ascii_runtime) (py "mach") 6 None ([], py "st", py "[")
    = Some (py "machst")
  ∧ pfx_step (rt := ascii_runtime) (py "mach") 6 ([], py "ge", py "[")
    = Some (py "gemach").
Proof.
  destruct (regex_error_fails_open (rt := ascii_runtime) (py "mach")
              6 None [] (py "st") (py "[")) as [Hs _].
  destruct (regex_error_fails_open (rt := ascii_runtime) (py "mach")
              6 None [] (py "ge") (py "[")) as [_ Hp].
  split.
  - apply Hs. intros stem. reflexivity.
  - apply Hp. intros stem. reflexivity.
Defined.

(** C3, as stated, fails at the condition made of a single backslash, which
    is no valid regular expression: the suffix rule matches with the pattern
    of the backslash followed by [$], which is valid and finds no dollar sign
    in [mach], so the rule yields nothing, although the length and alphabet
    checks alone keep [machst]. As a prefix condition the same text gives an
    invalid pattern, and the rule yields [gemach]. *)
Lemma invalid_condition_can_reject :
  (∀ text, re_search (PyRuntime := escape_runtime) [BACKSLASH] text = ReError)
  ∧ (∀ text, re_match (PyRuntime := escape_runtime) [BACKSLASH] text = ReError)
  ∧ re_search (PyRuntime := escape_runtime) ([BACKSLASH] ++ py "$") (py "mach") = ReNotFound
  ∧ sfx_step (rt := escape_runtime) (py "mach") 6 None ([], py "st", [BACKSLASH]) = None
  ∧ (stem ← sfx_stem (py "mach") []; kept 6 (stem ++ py "st"))
    = Some (py "machst")
  ∧ pfx_step (rt := escape_runtime) (py "mach") 6 ([], py "ge", [BACKSLASH])
    = Some (py "gemach").
Proof.
  split_and!; try (intros text); vm_compute; reflexivity.
Qed.

Section Blocking.
Context `{rt : PyRuntime}.

Lemma generate_single_flag base flag rules word_length blocked :
  _generate_affixed_candidates base [flag] rules word_length blocked
  = omap (sfx_step base word_length blocked) (default [] (sfx rules !! [flag]))
    ++ omap (pfx_step base word_length) (default [] (pfx rules !! [flag])).
Proof. unfold _generate_affixed_candidates. simpl. by rewrite app_nil_r. Qed.

Lemma omap_one {A C} (f : A → option C) x :
  omap f [x] = match f x with Some y => [y] | None => [] end.
Proof. reflexivity. Qed.

Lemma sfx_step_found base word_length blocked strip_ add cond stem :
  suffix_blocked blocked add = false →
  sfx_stem base strip_ = Some stem →
  re_search (cond ++ py "$") stem = ReFound →
  sfx_step base word_length blocked (strip_, add, cond) = kept word_length (stem ++ add).
Proof.
  intros Hb Hs Hre. unfold sfx_step. rewrite Hb, Hs. simpl. rewrite Hre.
  unfold cond_fails. by rewrite andb_false_r.
Qed.

Lemma sfx_step_blocked base word_length blocked rule :
  suffix_blocked blocked rule.1.2 = true →
  sfx_step base word_length blocked rule = None.
Proof. destruct rule as [[strip_ add] cond]. simpl. intros Hb. unfold sfx_step. by rewrite Hb. Qed.

Lemma plural_rules_S :
  sfx plural_rules !! [83%N] = Some [([], py "s", py ".")]
  ∧ pfx plural_rules !! [83%N] = None.
Proof. split; [apply lookup_singleton_eq|apply lookup_empty]. Qed.

Lemma generate_run_unblocked :
  re_search (py "." ++ py "$") (py "run") = ReFound →
  _generate_affixed_candidates (py "run") (py "S") plural_rules 4 None = [py "runs"].
Proof.
  intros Hre. change (py "S") with [83%N]. destruct plural_rules_S as [Hs Hp].
  rewrite generate_single_flag, Hs, Hp. cbn [default from_option id]. rewrite omap_one.
  by rewrite (sfx_step_found _ _ _ _ _ _ (py "run")).
Qed.

Lemma generate_run_blocked :
  str_lower (py "s") = py "s" →
  _generate_affixed_candidates (py "run") (py "S") plural_rules 4 (Some {[ py "s" ]}) = [].
Proof.
  intros Hlower. change (py "S") with [83%N]. destruct plural_rules_S as [Hs Hp].
  rewrite generate_single_flag, Hs, Hp. cbn [default from_option id]. rewrite omap_one.
  rewrite sfx_step_blocked; [done|]. cbn [fst snd]. unfold suffix_blocked.
  rewrite Hlower, bool_decide_eq_false_2, bool_decide_eq_true_2; [done|set_solver|].
  intros Hempty. assert (Hin : py "s" ∈ ({[ py "s" ]} : gset (list N))) by set_solver.
  rewrite Hempty in Hin. set_solver.
Qed.

(** C7. With the entry [("run", "S")] and the single suffix rule [S]: strip
    nothing, add [s], condition [.], target length 4, [expand_with_affixes]
    returns a set that contains [runs]; with [blocked_suffix_additions =
    {"s"}] the rule generates nothing and the result holds no word at all. *)
Theorem expand_run_with_plural_rule :
  re_search (py "." ++ py "$") (py "run") = ReFound →
  str_lower (py "s") = py "s" →
  py "runs" ∈ expand_with_affixes [(py "run", py "S")] plural_rules 4 None
  ∧ _generate_affixed_candidates (py "run") (py "S") plural_rules 4 (Some {[ py "s" ]}) = []
  ∧ expand_with_affixes [(py "run", py "S")] plural_rules 4 (Some {[ py "s" ]}) = ∅.
Proof.
  intros Hre Hlower. unfold expand_with_affixes. cbn [foldl].
  rewrite generate_run_unblocked, generate_run_blocked by done.
  split_and!; [|done|].
  - set_solver.
  - rewrite bool_decide_eq_false_2 by done. simpl. set_solver.
Qed.

End Blocking.

(** Witness for C7, on the ASCII runtime. *)
Lemma expand_run_with_plural_rule_witness :
  py "runs" ∈ expand_with_affixes (rt := ascii_runtime) [(py "run", py "S")] plural_rules 4 None
  ∧ _generate_affixed_candidates (rt := ascii_runtime) (py "run") (py "S") plural_rules 4
      (Some {[ py "s" ]}) = []
  ∧ expand_with_affixes (rt := ascii_runtime) [(py "run", py "S")] plural_rules 4
      (Some {[ py "s" ]}) = ∅.
Proof.
  apply (expand_run_with_plural_rule (rt := ascii_runtime)); reflexivity.
Defined.

(** ** The solution list *)



Section Solutions.
Context `{rt : PyRuntime}.


End Solutions.




(** ** Where the code departs from its contract *)

(** A rule line with exactly four fields never records a rule: the guard
    [len(parts) >= 5] stands before the default for the condition. *)
Lemma parse_aff_line_four_fields rules line :
  length (split_ws (strip line)) = 4%nat → parse_aff_line rules line = rules.
Proof.
  intros Hlen. unfold parse_aff_line. rewrite Hlen.
  destruct (negb _ || _); [done|].
  rewrite (bool_decide_eq_false_2 (4 < 4)%nat) by lia.
  rewrite (bool_decide_eq_false_2 (5 ≤ 4)%nat) by lia.
  by destruct (negb _).
Qed.

(** C2, at the failing input: the line [SFX A 0 en] has four fields and its
    third field is neither [Y] nor [N], yet no rule is recorded for flag [A];
    with the condition written out, [SFX A 0 en .], the rule is recorded. *)
Theorem parse_aff_rules_four_fields_dropped :
  split_ws (strip (py "SFX A 0 en" ++ [NL])) = [py "SFX"; py "A"; py "0"; py "en"]
  ∧ parse_aff_rules four_field_fs (py "de.aff") = AffRules_empty
  ∧ sfx (parse_aff_rules four_field_fs (py "de.aff")) !! py "A" = None
  ∧ sfx (parse_aff_rules five_field_fs (py "de.aff")) !! py "A"
    = Some [([], py "en", py ".")].
Proof. split_and!; vm_compute; reflexivity. Qed.

Section Alphabet.
Context `{rt : PyRuntime}.

Lemma kept_keeps word_length candidate w :
  kept word_length candidate = Some w → keeps word_length w = true.
Proof. unfold kept. destruct (keeps word_length candidate) eqn:Hk; naive_solver. Qed.

Lemma sfx_step_keeps base word_length blocked rule w :
  sfx_step base word_length blocked rule = Some w → keeps word_length w = true.
Proof.
  destruct rule as [[strip_ add] cond]. unfold sfx_step.
  destruct (suffix_blocked blocked add); [done|].
  destruct (sfx_stem base strip_) as [stem|]; simpl; [|done].
  destruct (cond_fails _ _); [done|]. apply kept_keeps.
Qed.

Lemma pfx_step_keeps base word_length rule w :
  pfx_step base word_length rule = Some w → keeps word_length w = true.
Proof.
  destruct rule as [[strip_ add] cond]. unfold pfx_step.
  destruct (pfx_stem base strip_) as [stem|]; simpl; [|done].
  destruct (cond_fails _ _); [done|]. apply kept_keeps.
Qed.

Lemma generated_keeps base flags rules word_length blocked w :
  w ∈ _generate_affixed_candidates base flags rules word_length blocked →
  keeps word_length w = true.
Proof.
  unfold _generate_affixed_candidates.
  intros (flag & Hw & _)%list_elem_of_bind.
  apply elem_of_app in Hw as [Hw|Hw]; apply list_elem_of_omap in Hw as (rule & _ & Hstep).
  - by eapply sfx_step_keeps.
  - by eapply pfx_step_keeps.
Qed.

(** What the code does guarantee: every word of the result has the target
    length and is matched by [letters_re]. *)
Lemma expand_with_affixes_keeps entries rules word_length blocked w :
  w ∈ expand_with_affixes entries rules word_length blocked →
  len w = word_length ∧ letters_re_match w = true.
Proof.
  unfold expand_with_affixes.
  assert (Hgen : ∀ (acc : gset (list N)),
    (∀ x, x ∈ acc → keeps word_length x = true) →
    ∀ x, x ∈ foldl (λ (result : gset (list N)) '(base, flags),
                      let result :=
                        if bool_decide (len base = word_length) && letters_re_match base
                        then result ∪ {[ base ]} else result in
                      result ∪ list_to_set
                        (_generate_affixed_candidates base flags rules word_length blocked))
                   acc entries → keeps word_length x = true).
  { induction entries as [|[base flags] entries IH]; intros acc Hacc x; simpl; [apply Hacc|].
    apply IH. intros y [Hy|Hy%elem_of_list_to_set]%elem_of_union.
    - destruct (bool_decide (len base = word_length) && letters_re_match base) eqn:Hb;
        [|by apply Hacc].
      apply elem_of_union in Hy as [Hy|Hy%elem_of_singleton]; [by apply Hacc|].
      subst y. exact Hb.
    - by eapply generated_keeps. }
  intros Hw. apply Hgen in Hw; [|set_solver].
  unfold keeps in Hw. apply andb_true_iff in Hw as [Hlen%bool_decide_eq_true Hre]. done.
Qed.

End Alphabet.


(** C6, at the failing input: the dictionary holds [cat] and [cats]; with
    difficulty [medium] and no solutions file, the heuristics flag [cats] as
    a plural of [cat], and [cats] is the solution list all the same. *)
Theorem medium_pool_keeps_inflected :
  ∃ data,
    _collect_dictionary_word_data (rt := ascii_runtime) cats_fs (py "dict") 4 (py "en") = Ok data
    ∧ _should_exclude_inflected (rt := ascii_runtime) (py "cats") (py "en") (catalog data) = true
    ∧ (_load_or_build_filtered_solutions (rt := ascii_runtime)
         cats_fs (py "en") 4 (py "dict") true).1 = Ok [py "cats"]
    ∧ (play_gui_solutions (rt := ascii_runtime) cats_fs 4 (py "solutions/en4.txt")
         (py "dict") (py "en") (py "medium") true).1 = Ok [py "cats"].
Proof.
  eexists. split; [vm_compute; reflexivity|].
  split_and!; vm_compute; reflexivity.
Qed.

(** * Further properties *)

Set Warnings "-clear-no-such-hyp".

(** ** Markers position by position *)

Lemma count_positions_pos (P : nat → Prop) `{∀ i, Decision (P i)} k i :
  (i < k)%nat → P i → (1 ≤ count_positions k P)%nat.
Proof.
  induction k as [|k IH]; [lia|]. intros Hi HP. rewrite count_positions_S.
  destruct (decide (i = k)) as [->|Hne].
  - unfold ind. rewrite decide_True by done. lia.
  - specialize (IH ltac:(lia) HP). lia.
Qed.

Lemma count_positions_exists (P : nat → Prop) `{∀ i, Decision (P i)} k :
  (1 ≤ count_positions k P)%nat → ∃ i, (i < k)%nat ∧ P i.
Proof.
  induction k as [|k IH]; [rewrite count_positions_0; lia|].
  rewrite count_positions_S. unfold ind.
  destruct (decide (P k)) as [HP|_].
  - intros _. exists k. split; [lia|done].
  - intros Hc. destruct IH as (i & Hi & HP); [lia|]. exists i. split; [lia|done].
Qed.

(** The markers of equal-length words, read position by position. *)
Lemma score_guess_positions (guess target : list N) :
  length guess = length target →
  ∃ markers,
    score_guess guess target = Some markers
    ∧ length markers = length target
    ∧ (∀ i g t, guess !! i = Some g → target !! i = Some t →
         (markers !! i = Some G ↔ g = t))
    ∧ (∀ i g, guess !! i = Some g → markers !! i = Some Y → g ∈ target).
Proof.
  intros Hlen.
  destruct (pass1_invariant guess target Hlen (length target))
    as (res1 & rem1 & Hrun1 & Hlen1 & Hres1 & Hrem1); [lia|].
  assert (HnoY : ∀ j, res1 !! j ≠ Some Y).
  { intros j Hj. assert (Hlt : (j < length target)%nat).
    { apply lookup_lt_Some in Hj. lia. }
    destruct (lookup_lt_is_Some_2 guess j) as [g Hg]; [lia|].
    destruct (lookup_lt_is_Some_2 target j) as [t Ht]; [lia|].
    rewrite (Hres1 j g t) in Hj by done. by destruct (decide _). }
  assert (Hpos1 : ∀ c, 0 ≤ get0 rem1 c) by (intros c; rewrite Hrem1; lia).
  destruct (pass2_invariant guess target Hlen res1 rem1 (length target))
    as (res & rem & Hrun2 & Hlen2 & _ & HG & Hcnt & Hpos); [done..|lia|].
  exists res. unfold score_guess. rewrite Hrun1. simpl. rewrite Hrun2. simpl.
  split_and!; [done|done| |].
  - intros i g t Hg Ht. rewrite HG, (Hres1 i g t) by done.
    apply lookup_lt_Some in Ht.
    destruct (decide _) as [[_ ->]|Hn]; [done|].
    split; [done|]. intros ->. exfalso. by apply Hn.
  - intros i g Hg HY.
    assert (Hi : (i < length target)%nat) by (apply lookup_lt_Some in HY; lia).
    pose proof (count_positions_pos
      (λ j, res !! j = Some Y ∧ guess !! j = Some g) (length target) i Hi
      (conj HY Hg)) as Hone.
    specialize (Hcnt g). specialize (Hpos g). rewrite Hrem1 in Hcnt.
    destruct (count_positions_exists
      (λ j, target !! j = Some g ∧ guess !! j ≠ Some g) (length target))
      as (j & _ & Hj & _); [lia|].
    by eapply list_elem_of_lookup_2.
Qed.

(** X1. For equal-length words, the guess scores all ['G'] exactly when it is
    the target. *)
Theorem score_guess_all_green_iff_equal (guess target : list N) :
  length guess = length target →
  score_guess guess target = Some (replicate (length target) G) ↔ guess = target.
Proof.
  intros Hlen.
  destruct (score_guess_positions guess target Hlen) as (markers & Hrun & Hlm & HG & _).
  rewrite Hrun. split.
  - intros [= ->]. apply list_eq. intros i.
    destruct (guess !! i) as [g|] eqn:Hg.
    + destruct (lookup_lt_is_Some_2 target i) as [t Ht].
      { apply lookup_lt_Some in Hg. lia. }
      rewrite Ht. f_equal. apply (HG i g t Hg Ht).
      apply lookup_replicate_2. by apply lookup_lt_Some in Ht.
    + symmetry. apply lookup_ge_None. apply lookup_ge_None in Hg. lia.
  - intros ->. f_equal. apply list_eq. intros i.
    destruct (target !! i) as [t|] eqn:Ht.
    + rewrite lookup_replicate_2 by (by apply lookup_lt_Some in Ht).
      by apply (HG i t t Ht Ht).
    + apply lookup_ge_None in Ht.
      rewrite (proj2 (lookup_ge_None markers i)) by lia.
      symmetry. apply lookup_replicate_None. lia.
Qed.

Lemma score_guess_all_green_iff_equal_witness :
  score_guess (py "trace") (py "trace") = Some (replicate (length (py "trace")) G)
  ↔ py "trace" = py "trace".
Proof. apply (score_guess_all_green_iff_equal (py "trace") (py "trace")). reflexivity. Defined.

(** X2. For equal-length words, read position by position: the marker is
    ['G'] exactly when guess and target have the same letter there; a
    position marked ['Y'] holds a letter that differs from the target's letter
    there and occurs in the target; a guessed letter that does not occur in
    the target is marked ['B']. *)
Theorem score_guess_marker_meaning (guess target : list N) (i : nat) (g t : N) :
  length guess = length target →
  guess !! i = Some g → target !! i = Some t →
  ∃ markers, score_guess guess target = Some markers
             ∧ (markers !! i = Some G ↔ g = t)
             ∧ (markers !! i = Some Y → g ≠ t ∧ g ∈ target)
             ∧ (g ∉ target → markers !! i = Some B).
Proof.
  intros Hlen Hg Ht.
  destruct (score_guess_positions guess target Hlen) as (markers & Hrun & Hlm & HG & HY).
  exists markers. split; [done|].
  destruct (lookup_lt_is_Some_2 markers i) as [m Hm].
  { apply lookup_lt_Some in Hg. lia. }
  specialize (HG i g t Hg Ht). specialize (HY i g Hg). split_and!; [done| |].
  - intros Hyel. split; [|by apply HY]. intros ->.
    rewrite Hyel in HG. destruct HG as [_ HG']. discriminate (HG' eq_refl).
  - intros Hnot. rewrite Hm. destruct m; [| |done].
    + rewrite Hm in HG. exfalso. apply Hnot.
      destruct HG as [HG1 _]. rewrite (HG1 eq_refl). by eapply list_elem_of_lookup_2.
    + exfalso. apply Hnot, HY. by rewrite Hm.
Qed.

Lemma score_guess_marker_meaning_witness :
  ∃ markers, score_guess (py "crane") (py "trace") = Some markers
             ∧ (markers !! 0%nat = Some G ↔ 99%N = 116%N)
             ∧ (markers !! 0%nat = Some Y → 99%N ≠ 116%N ∧ 99%N ∈ py "trace")
             ∧ (99%N ∉ py "trace" → markers !! 0%nat = Some B).
Proof.
  apply (score_guess_marker_meaning (py "crane") (py "trace") 0 99 116); reflexivity.
Defined.

(** ** Guesses of another length *)

Lemma for_range_ext {S} (body1 body2 : S → nat → option S) n s :
  (∀ s' i, (i < n)%nat → body1 s' i = body2 s' i) →
  for_range n body1 s = for_range n body2 s.
Proof.
  induction n as [|n IH]; intros Hext; [done|].
  rewrite !for_range_S, IH by (intros; apply Hext; lia).
  destruct (for_range n body2 s); simpl; [apply Hext; lia|done].
Qed.

Lemma for_range_fail {S} (body : S → nat → option S) n m s :
  (m < n)%nat → (∀ s', body s' m = None) → for_range n body s = None.
Proof.
  intros Hm Hfail. induction n as [|n IH]; [lia|]. rewrite for_range_S.
  destruct (decide (m = n)) as [->|Hne].
  - destruct (for_range n body s); simpl; [apply Hfail|done].
  - rewrite IH by lia. done.
Qed.

Lemma score_guess_take (guess target : list N) :
  (length target ≤ length guess)%nat →
  score_guess guess target = score_guess (take (length target) guess) target.
Proof.
  intros Hlen. unfold score_guess.
  rewrite (for_range_ext (score_pass1 guess target)
             (score_pass1 (take (length target) guess) target)).
  2:{ intros s' i Hi. unfold score_pass1. by rewrite lookup_take_lt. }
  destruct (for_range _ _ _) as [st1|]; simpl; [|done].
  rewrite (for_range_ext (score_pass2 guess)
             (score_pass2 (take (length target) guess))); [done|].
  intros s' i Hi. unfold score_pass2. by rewrite lookup_take_lt.
Qed.

(** X3. [score_guess] returns markers exactly when the guess is at least as
    long as the target (a shorter guess raises [IndexError]); the letters of
    the guess beyond the target's length are ignored. *)
Theorem score_guess_defined_iff (guess target : list N) :
  (is_Some (score_guess guess target) ↔ (length target ≤ length guess)%nat)
  ∧ ((length target ≤ length guess)%nat →
     score_guess guess target = score_guess (take (length target) guess) target).
Proof.
  split; [|apply score_guess_take]. split.
  - intros Hsome. destruct (decide (length target ≤ length guess)%nat) as [|Hlt]; [done|].
    exfalso. unfold score_guess in Hsome.
    rewrite (for_range_fail _ _ (length guess)) in Hsome; [by destruct Hsome|lia|].
    intros s'. unfold score_pass1. by rewrite (proj2 (lookup_ge_None guess _)).
  - intros Hlen. rewrite score_guess_take by done.
    destruct (score_guess_positions (take (length target) guess) target)
      as (markers & -> & _); [|done].
    rewrite length_take. lia.
Qed.

Lemma score_guess_defined_iff_witness :
  is_Some (score_guess (py "cranes") (py "trace"))
  ∧ score_guess (py "cranes") (py "trace") = score_guess (py "crane") (py "trace").
Proof.
  destruct (score_guess_defined_iff (py "cranes") (py "trace")) as [Hdef Htake].
  split; [apply Hdef; simpl; lia|apply Htake; simpl; lia].
Defined.

(** ** The rule tables a file gives *)

Lemma split_ws_from_fields cur s f :
  Forall (λ c, is_space c = false) cur →
  f ∈ split_ws_from cur s → f ≠ [] ∧ Forall (λ c, is_space c = false) f.
Proof.
  revert cur. induction s as [|c s IH]; intros cur Hcur; simpl.
  - destruct cur as [|d cur]; simpl; [by intros ?%elem_of_nil|].
    intros ->%list_elem_of_singleton. split.
    + intros Hnil%(f_equal length). rewrite length_reverse in Hnil. done.
    + by apply Forall_reverse.
  - destruct (is_space c) eqn:Hc.
    + destruct cur as [|d cur]; simpl; [by apply IH|].
      intros [->|Hf]%elem_of_cons; [|apply (IH []); [constructor|done]].
      split; [|by apply Forall_reverse].
      intros Hnil%(f_equal length). rewrite length_reverse in Hnil. done.
    + apply IH. by constructor.
Qed.

Lemma split_ws_fields s f :
  f ∈ split_ws s → f ≠ [] ∧ Forall (λ c, is_space c = false) f.
Proof. apply split_ws_from_fields. constructor. Qed.

Lemma parse_aff_line_rule rules line :
  parse_aff_line rules line
  = match aff_rule_of_line line with
    | Some (is_suffix, flag, (strip_, add, cond)) =>
        add_rule rules is_suffix flag strip_ add cond
    | None => rules
    end.
Proof.
  unfold parse_aff_line, aff_rule_of_line.
  destruct (strip line) as [|c0 stripped] eqn:Hs; [done|].
  cbn [nonempty negb orb].
  destruct (startswith (c0 :: stripped) (py "#")); [done|].
  destruct (split_ws (c0 :: stripped)) as [|f1 [|f2 [|f3 [|f4 [|f5 fs]]]]] eqn:Hparts;
    cbn [length].
  1-4: by rewrite bool_decide_eq_true_2 by lia.
  - rewrite (bool_decide_eq_false_2 (4 < 4)%nat), (bool_decide_eq_false_2 (5 ≤ 4)%nat) by lia.
    cbn [andb]. by destruct (negb _).
  - rewrite bool_decide_eq_false_2 by lia.
    rewrite !(bool_decide_eq_true_2 (5 ≤ _)%nat) by lia.
    unfold part, zero_empty. cbn [lookup list_lookup default from_option id andb].
    destruct (bool_decide (f1 = py "SFX") || bool_decide (f1 = py "PFX")); cbn [negb andb]; [|done].
    destruct (bool_decide (f3 = py "Y")); cbn [negb andb]; [done|].
    destruct (bool_decide (f3 = py "N")); cbn [negb andb]; [done|].
    by destruct (bool_decide (f3 = py "0")), (bool_decide (f4 = py "0")).
Qed.

Lemma lookup_add_rule b rules b' flag' strip_ add cond flag :
  table b (add_rule rules b' flag' strip_ add cond) !! flag
  = if bool_decide (b' = b ∧ flag' = flag)
    then Some (default [] (table b rules !! flag) ++ [(strip_, add, cond)])
    else table b rules !! flag.
Proof.
  unfold add_rule, table. destruct b, b'; case_bool_decide as Hd; cbn [sfx pfx].
  - destruct Hd as [_ ->]. by rewrite lookup_insert_eq.
  - rewrite lookup_insert_ne; [done|]. intros ->. by apply Hd.
  - by destruct Hd.
  - done.
  - by destruct Hd.
  - done.
  - destruct Hd as [_ ->]. by rewrite lookup_insert_eq.
  - rewrite lookup_insert_ne; [done|]. intros ->. by apply Hd.
Qed.

Lemma parse_aff_lines_lookup b flag rules lines :
  default [] (table b (foldl parse_aff_line rules lines) !! flag)
  = default [] (table b rules !! flag) ++ rules_of_lines b flag lines.
Proof.
  revert rules. induction lines as [|line lines IH]; intros rules.
  - simpl. by rewrite app_nil_r.
  - cbn [foldl]. rewrite IH, parse_aff_line_rule. unfold rules_of_lines at 2.
    cbn [omap list_omap]. fold (rules_of_lines b flag lines).
    destruct (aff_rule_of_line line) as [[[b' flag'] [[strip_ add] cond]]|]; simpl; [|done].
    rewrite lookup_add_rule. case_bool_decide; simpl; [|done].
    by rewrite <- app_assoc.
Qed.

(** X4. The rules [parse_aff_rules] stores under a flag, in the suffix table
    as in the prefix table, are the rule lines of the file for that kind and
    flag, all of them and in file order. *)
Theorem parse_aff_rules_file_order (fs : FileSystem) (aff_path content : list N)
    (is_suffix : bool) (flag : list N) :
  fs_files fs !! aff_path = Some content →
  default [] (table is_suffix (parse_aff_rules fs aff_path) !! flag)
  = rules_of_lines is_suffix flag (text_lines content).
Proof.
  intros Hfile. unfold parse_aff_rules. rewrite Hfile, parse_aff_lines_lookup.
  by destruct is_suffix.
Qed.

Lemma parse_aff_rules_file_order_witness :
  default [] (sfx (parse_aff_rules rules_fs (py "de.aff")) !! py "A")
  = [([], py "en", py "."); (py "e", py "en", py "e")]
  ∧ default [] (pfx (parse_aff_rules rules_fs (py "de.aff")) !! py "B")
    = [([], py "un", py ".")].
Proof.
  split.
  - etrans; [exact (parse_aff_rules_file_order rules_fs (py "de.aff") _ true (py "A") eq_refl)|].
    vm_compute. reflexivity.
  - etrans; [exact (parse_aff_rules_file_order rules_fs (py "de.aff") _ false (py "B") eq_refl)|].
    vm_compute. reflexivity.
Defined.

Lemma zero_empty_fields f :
  field_like f → zero_empty f ≠ py "0" ∧ Forall (λ c, is_space c = false) (zero_empty f).
Proof.
  intros [_ Hf]. unfold zero_empty. case_bool_decide; [by split|by split].
Qed.

Lemma aff_rule_of_line_fields line b flag strip_ add cond :
  aff_rule_of_line line = Some (b, flag, (strip_, add, cond)) →
  field_like flag ∧ field_like cond ∧ strip_ ≠ py "0" ∧ add ≠ py "0"
  ∧ Forall (λ c, is_space c = false) strip_ ∧ Forall (λ c, is_space c = false) add.
Proof.
  unfold aff_rule_of_line. destruct (startswith _ _); [done|].
  destruct (split_ws (strip line)) as [|f1 [|f2 [|f3 [|f4 [|f5 fs]]]]] eqn:Hparts; try done.
  destruct (_ && _); [|done]. intros [= <- <- <- <- <-].
  assert (Hin : ∀ f, f ∈ [f1; f2; f3; f4; f5] → field_like f).
  { intros f Hf. apply (split_ws_fields (strip line)). rewrite Hparts.
    rewrite <- (take_drop 5 (f1 :: _)). apply elem_of_app. by left. }
  assert (H2 : field_like f2) by (apply Hin; repeat constructor).
  assert (H3 : field_like f3) by (apply Hin; repeat constructor).
  assert (H4 : field_like f4) by (apply Hin; repeat constructor).
  assert (H5 : field_like f5) by (apply Hin; repeat constructor).
  destruct (zero_empty_fields f3 H3) as [? ?].
  destruct (zero_empty_fields f4 H4) as [? ?].
  by split_and!.
Qed.

Lemma parse_aff_line_stored_ok rules line :
  (∀ b flag l, table b rules !! flag = Some l → stored_ok flag l) →
  ∀ b flag l, table b (parse_aff_line rules line) !! flag = Some l → stored_ok flag l.
Proof.
  intros Hinv b flag l. rewrite parse_aff_line_rule.
  destruct (aff_rule_of_line line) as [[[b' flag'] [[strip_ add] cond]]|] eqn:Hrule;
    [|apply Hinv].
  rewrite lookup_add_rule. case_bool_decide as Hd; [|apply Hinv].
  destruct Hd as [-> ->]. intros [= <-].
  destruct (aff_rule_of_line_fields _ _ _ _ _ _ Hrule) as (Hflag & Hcond & Hs & Ha & Hsw & Haw).
  split_and!; [by destruct (default [] _)|done|].
  intros s a c [Hold|Hnew%list_elem_of_singleton]%elem_of_app; [|by simplify_eq].
  destruct (table b rules !! flag) as [l0|] eqn:Hl0; simpl in Hold.
  - destruct (Hinv _ _ _ Hl0) as (_ & _ & Hall). by apply Hall.
  - by apply elem_of_nil in Hold.
Qed.

(** X5. Every rule list that [parse_aff_rules] stores is non-empty and sits
    under a non-empty flag without whitespace; each of its rules has a
    non-empty condition, and neither its strip nor its add text is ["0"] or
    holds whitespace. *)
Theorem parse_aff_rules_stored_ok (fs : FileSystem) (aff_path : list N)
    (is_suffix : bool) (flag : list N) (l : list (list N * list N * list N)) :
  table is_suffix (parse_aff_rules fs aff_path) !! flag = Some l →
  stored_ok flag l.
Proof.
  unfold parse_aff_rules. destruct (fs_files fs !! aff_path) as [content|].
  - revert is_suffix flag l.
    assert (Hgen : ∀ lines rules,
      (∀ b flag l, table b rules !! flag = Some l → stored_ok flag l) →
      ∀ b flag l, table b (foldl parse_aff_line rules lines) !! flag = Some l →
                  stored_ok flag l).
    { induction lines as [|line lines IH]; intros rules Hinv; [done|].
      cbn [foldl]. by apply IH, parse_aff_line_stored_ok. }
    apply Hgen. intros b flag l. by destruct b.
  - by destruct is_suffix.
Qed.

Lemma parse_aff_rules_stored_ok_witness :
  stored_ok (py "A") [([], py "en", py "."); (py "e", py "en", py "e")].
Proof.
  apply (parse_aff_rules_stored_ok rules_fs (py "de.aff") true).
  vm_compute. reflexivity.
Defined.

(** ** Merging rule tables *)

(** [merge_rules] appends, flag by flag, the lists of the second table to
    those of the first; flags the second table lacks keep their list. *)
Lemma merge_rules_lookup (dst src : gmap (list N) (list (list N * list N * list N)))
    (flag : list N) :
  merge_rules dst src !! flag
  = match src !! flag with
    | None => dst !! flag
    | Some rule_list => Some (default [] (dst !! flag) ++ rule_list)
    end.
Proof.
  unfold merge_rules. revert flag.
  apply (map_fold_weak_ind
    (λ r (m : gmap (list N) (list (list N * list N * list N))),
       ∀ flag, r !! flag = match m !! flag with
                           | None => dst !! flag
                           | Some rule_list => Some (default [] (dst !! flag) ++ rule_list)
                           end)).
  - intros flag. by rewrite lookup_empty.
  - intros i x m r Hi IH flag. destruct (decide (i = flag)) as [->|Hne].
    + rewrite !lookup_insert_eq. specialize (IH flag). rewrite Hi in IH. by rewrite IH.
    + rewrite !lookup_insert_ne by done. apply IH.
Qed.

Section Components.
Context `{rt : PyRuntime}.

Lemma merge_rules_default dst src flag :
  default [] (merge_rules dst src !! flag)
  = default [] (dst !! flag) ++ default [] (src !! flag).
Proof.
  assert (Hm := map_fold_weak_ind
    (λ r (m : gmap (list N) (list (list N * list N * list N))),
       ∀ flag, default [] (r !! flag)
               = default [] (dst !! flag) ++ default [] (m !! flag))
    (λ flag rule_list acc, <[flag := default [] (acc !! flag) ++ rule_list]> acc) dst).
  apply Hm; clear Hm.
  - intros f. rewrite lookup_empty. simpl. by rewrite app_nil_r.
  - intros i x m r Hi IH f. destruct (decide (i = f)) as [->|Hne].
    + rewrite !lookup_insert_eq. simpl. specialize (IH f). rewrite Hi in IH.
      simpl in IH. rewrite app_nil_r in IH. by rewrite IH.
    + rewrite !lookup_insert_ne by done. apply IH.
Qed.


End Components.


(** ** Prefixes, suffixes and the alphabet pattern *)

Lemma startswith_spec s p : startswith s p = true ↔ ∃ rest, s = p ++ rest.
Proof.
  revert s. induction p as [|c p IH]; intros s.
  - destruct s; simpl; split; eauto.
  - destruct s as [|d s]; simpl.
    + split; [done|]. by intros [rest ?].
    + rewrite andb_true_iff, IH, N.eqb_eq. split.
      * intros [-> [rest ->]]. eauto.
      * intros [rest [= -> ->]]. eauto.
Qed.

Lemma endswith_spec s p : endswith s p = true ↔ ∃ stem, s = stem ++ p.
Proof.
  unfold endswith. rewrite startswith_spec. split.
  - intros [rest Hrev]. exists (reverse rest).
    apply (inj reverse). by rewrite reverse_app, reverse_involutive.
  - intros [stem ->]. exists (reverse stem). by rewrite reverse_app.
Qed.

Lemma drop_last_app stem p : drop_last (length p) (stem ++ p) = stem.
Proof.
  unfold drop_last. rewrite length_app, Nat.add_sub. by rewrite take_app_length.
Qed.

Lemma sfx_stem_spec base strip_ stem :
  sfx_stem base strip_ = Some stem ↔ base = stem ++ strip_.
Proof.
  unfold sfx_stem. destruct (nonempty strip_) eqn:Hne; cbn [andb].
  - destruct (endswith base strip_) eqn:Hend.
    + apply endswith_spec in Hend as [stem' ->]. rewrite drop_last_app. split.
      * by intros [= ->].
      * by intros ->%(inj (λ x, x ++ strip_)).
    + split; [done|]. intros ->.
      assert (endswith (stem ++ strip_) strip_ = true) as Ht
        by (apply endswith_spec; eauto).
      congruence.
  - destruct strip_; [|done]. rewrite app_nil_r. split; [by intros [= ->]|by intros ->].
Qed.

Lemma pfx_stem_spec base strip_ stem :
  pfx_stem base strip_ = Some stem ↔ base = strip_ ++ stem.
Proof.
  unfold pfx_stem. destruct (nonempty strip_) eqn:Hne; cbn [andb].
  - destruct (startswith base strip_) eqn:Hst.
    + apply startswith_spec in Hst as [rest ->]. rewrite drop_app_length. split.
      * by intros [= ->].
      * by intros ->%(inj (app strip_)).
    + split; [done|]. intros ->.
      assert (startswith (strip_ ++ stem) strip_ = true) as Ht
        by (apply startswith_spec; eauto).
      congruence.
  - destruct strip_; [|done]. simpl. split; [by intros [= ->]|by intros ->].
Qed.

Lemma skip_letters_split s :
  ∃ body, s = body ++ skip_letters s ∧ Forall (λ c, letter c = true) body.
Proof.
  induction s as [|c s (body & Hs & Hbody)]; simpl.
  - by exists [].
  - destruct (letter c) eqn:Hc.
    + exists (c :: body). split; [simpl; by f_equal|by constructor].
    + by exists [].
Qed.

Lemma skip_letters_app body tail :
  Forall (λ c, letter c = true) body → skip_letters (body ++ tail) = skip_letters tail.
Proof. induction 1 as [|c body Hc _ IH]; simpl; [done|]. by rewrite Hc. Qed.

(** What [letters_re] accepts: one or more letters of the class, then
    nothing or a single final newline. *)
Lemma letters_re_match_spec s :
  letters_re_match s = true
  ↔ ∃ body, body ≠ [] ∧ Forall (λ c, letter c = true) body
            ∧ (s = body ∨ s = body ++ [NL]).
Proof.
  split.
  - destruct s as [|c s]; simpl; [done|].
    intros [Hc Htail]%andb_true_iff.
    destruct (skip_letters_split s) as (body & Hs & Hbody).
    exists (c :: body). split_and!; [done|by constructor|].
    apply orb_true_iff in Htail as [Ht%bool_decide_eq_true|Ht%bool_decide_eq_true];
      rewrite Ht in Hs; rewrite Hs.
    + left. by rewrite app_nil_r.
    + by right.
  - intros (body & Hne & Hbody & Hs). destruct body as [|c body]; [done|].
    apply Forall_cons in Hbody as [Hc Hbody].
    destruct Hs as [->| ->]; simpl; rewrite Hc; simpl.
    + rewrite <- (app_nil_r body), skip_letters_app by done. done.
    + rewrite skip_letters_app by done. done.
Qed.

(** ** The expansion as a set *)

Section ExpansionSet.
Context `{rt : PyRuntime}.

Lemma expand_fold_elem (rules : AffRules) (word_length : Z)
    (blocked : option (gset (list N))) (entries : list (list N * list N))
    (acc : gset (list N)) (w : list N) :
  w ∈ foldl (λ (result : gset (list N)) '(base, flags),
               let result :=
                 if bool_decide (len base = word_length) && letters_re_match base
                 then result ∪ {[ base ]} else result in
               result ∪ list_to_set
                 (_generate_affixed_candidates base flags rules word_length blocked))
            acc entries
  ↔ w ∈ acc
    ∨ ∃ base flags, (base, flags) ∈ entries
        ∧ ((w = base ∧ keeps word_length base = true)
           ∨ w ∈ _generate_affixed_candidates base flags rules word_length blocked).
Proof.
  revert acc. induction entries as [|[base flags] entries IH]; intros acc.
  - simpl. split; [auto|]. intros [?|(b & f & []%elem_of_nil & _)]; done.
  - cbn [foldl]. rewrite IH. clear IH. rewrite elem_of_union, elem_of_list_to_set.
    fold (keeps word_length base). split.
    + intros [[Hacc|Hgen]|(b & f & Hin & Hw)].
      * destruct (keeps word_length base) eqn:Hk; [|auto].
        apply elem_of_union in Hacc as [?| ->%elem_of_singleton]; [auto|].
        right. exists base, flags. split; [apply list_elem_of_here|auto].
      * right. exists base, flags. split; [apply list_elem_of_here|auto].
      * right. exists b, f. split; [by apply list_elem_of_further|done].
    + intros [Hacc|(b & f & Hin & Hw)].
      * left. left. destruct (keeps word_length base); [|done].
        apply elem_of_union. auto.
      * apply elem_of_cons in Hin as [[= -> ->]|Hin].
        -- left. destruct Hw as [[-> Hk]|Hgen]; [|auto].
           left. rewrite Hk. apply elem_of_union. right. by apply elem_of_singleton.
        -- right. eauto.
Qed.

Lemma expand_with_affixes_elem (entries : list (list N * list N)) (rules : AffRules)
    (word_length : Z) (blocked : option (gset (list N))) (w : list N) :
  w ∈ expand_with_affixes entries rules word_length blocked
  ↔ ∃ base flags, (base, flags) ∈ entries
      ∧ ((w = base ∧ keeps word_length base = true)
         ∨ w ∈ _generate_affixed_candidates base flags rules word_length blocked).
Proof.
  unfold expand_with_affixes. rewrite expand_fold_elem.
  split; [intros [[]%elem_of_empty|?]; done|auto].
Qed.

(** X7. Every word [expand_with_affixes] returns has exactly the target
    length and is made of letters of the class [a-zäöüß], possibly followed
    by one final newline. *)
Theorem expand_with_affixes_shape (entries : list (list N * list N)) (rules : AffRules)
    (word_length : Z) (blocked : option (gset (list N))) (w : list N) :
  w ∈ expand_with_affixes entries rules word_length blocked →
  len w = word_length ∧ letters_then_newline w.
Proof.
  intros Hw. apply expand_with_affixes_elem in Hw as (base & flags & _ & Hw).
  assert (Hk : keeps word_length w = true).
  { destruct Hw as [[-> Hk]|Hgen]; [done|by eapply generated_keeps]. }
  apply andb_true_iff in Hk as [Hlen%bool_decide_eq_true Hre].
  split; [done|]. by apply letters_re_match_spec.
Qed.

(** X8. The expansion of a concatenated entry list is the union of the
    expansions: every entry contributes on its own. *)
Theorem expand_with_affixes_app (entries1 entries2 : list (list N * list N))
    (rules : AffRules) (word_length : Z) (blocked : option (gset (list N))) :
  expand_with_affixes (entries1 ++ entries2) rules word_length blocked
  = expand_with_affixes entries1 rules word_length blocked
    ∪ expand_with_affixes entries2 rules word_length blocked.
Proof.
  apply set_eq. intros w. rewrite elem_of_union, !expand_with_affixes_elem. split.
  - intros (base & flags & [Hin|Hin]%elem_of_app & Hw); [left|right]; eauto.
  - intros [(base & flags & Hin & Hw)|(base & flags & Hin & Hw)];
      exists base, flags; (split; [apply elem_of_app; auto|done]).
Qed.

(** X9. When no flag of any entry has a rule, the result is exactly the set
    of bases that have the target length and match [letters_re]; in
    particular entries without flags contribute only their base. *)
Theorem expand_with_affixes_no_rules (entries : list (list N * list N)) (rules : AffRules)
    (word_length : Z) (blocked : option (gset (list N))) (w : list N) :
  (∀ base flags flag, (base, flags) ∈ entries → flag ∈ flags →
     sfx rules !! [flag] = None ∧ pfx rules !! [flag] = None) →
  w ∈ expand_with_affixes entries rules word_length blocked
  ↔ w ∈ entries.*1 ∧ keeps word_length w = true.
Proof.
  intros Hnone. rewrite expand_with_affixes_elem. split.
  - intros (base & flags & Hin & [[-> Hk]|Hgen]).
    + split; [|done]. apply list_elem_of_fmap. by exists (base, flags).
    + exfalso. unfold _generate_affixed_candidates in Hgen.
      apply list_elem_of_bind in Hgen as (flag & Hw & Hflag).
      destruct (Hnone base flags flag Hin Hflag) as [Hs Hp].
      rewrite Hs, Hp in Hw. simpl in Hw. by apply elem_of_nil in Hw.
  - intros [([base flags] & -> & Hin)%list_elem_of_fmap Hk].
    exists base, flags. auto.
Qed.

Lemma suffix_blocked_none add : suffix_blocked None add = false.
Proof. done. Qed.

Lemma sfx_step_unblocked base word_length blocked rule w :
  sfx_step base word_length blocked rule = Some w →
  sfx_step base word_length None rule = Some w.
Proof.
  destruct rule as [[strip_ add] cond]. unfold sfx_step.
  by destruct (suffix_blocked blocked add).
Qed.

(** X10. Blocking suffix additions only removes words: the result with a
    blocked set is contained in the result without one. *)
Theorem expand_with_affixes_blocked_subseteq (entries : list (list N * list N))
    (rules : AffRules) (word_length : Z) (blocked : gset (list N)) :
  expand_with_affixes entries rules word_length (Some blocked)
  ⊆ expand_with_affixes entries rules word_length None.
Proof.
  intros w. rewrite !expand_with_affixes_elem.
  intros (base & flags & Hin & Hw). exists base, flags. split; [done|].
  destruct Hw as [?|Hgen]; [by left|right].
  unfold _generate_affixed_candidates in *.
  apply list_elem_of_bind in Hgen as (flag & Hw & Hflag).
  apply list_elem_of_bind. exists flag. split; [|done].
  apply elem_of_app in Hw as [Hw|Hw]; apply elem_of_app; [left|by right].
  apply list_elem_of_omap in Hw as (rule & Hrule & Hstep).
  apply list_elem_of_omap. exists rule. split; [done|].
  by eapply sfx_step_unblocked.
Qed.

(** X11. Every word the generator yields comes from one rule under one flag
    of the entry: it is [stem + add] for a suffix rule with [base = stem +
    strip], or [add + stem] for a prefix rule with [base = strip + stem];
    never both at once. *)
Theorem generated_by_one_rule (base flags : list N) (rules : AffRules)
    (word_length : Z) (blocked : option (gset (list N))) (w : list N) :
  w ∈ _generate_affixed_candidates base flags rules word_length blocked →
  ∃ flag strip_ add cond stem,
    flag ∈ flags
    ∧ (((strip_, add, cond) ∈ default [] (sfx rules !! [flag])
        ∧ base = stem ++ strip_ ∧ w = stem ++ add)
       ∨ ((strip_, add, cond) ∈ default [] (pfx rules !! [flag])
          ∧ base = strip_ ++ stem ∧ w = add ++ stem)).
Proof.
  unfold _generate_affixed_candidates.
  intros (flag & Hw & Hflag)%list_elem_of_bind.
  apply elem_of_app in Hw as [Hw|Hw];
    apply list_elem_of_omap in Hw as ([[strip_ add] cond] & Hrule & Hstep).
  - unfold sfx_step in Hstep. destruct (suffix_blocked blocked add); [done|].
    destruct (sfx_stem base strip_) as [stem|] eqn:Hstem; simpl in Hstep; [|done].
    destruct (cond_fails _ _); [done|]. unfold kept in Hstep.
    destruct (keeps _ _); [|done]. injection Hstep as <-.
    exists flag, strip_, add, cond, stem. split; [done|]. left.
    by apply sfx_stem_spec in Hstem.
  - unfold pfx_step in Hstep.
    destruct (pfx_stem base strip_) as [stem|] eqn:Hstem; simpl in Hstep; [|done].
    destruct (cond_fails _ _); [done|]. unfold kept in Hstep.
    destruct (keeps _ _); [|done]. injection Hstep as <-.
    exists flag, strip_, add, cond, stem. split; [done|]. right.
    by apply pfx_stem_spec in Hstem.
Qed.

End ExpansionSet.

(** ** The alphabet of the expansion *)

Lemma letters_only (w : list N) :
  letters_re_match w = true → NL ∉ w → Forall (λ c, letter c = true) w.
Proof.
  intros (body & Hne & Hbody & [->| ->])%letters_re_match_spec Hnl; [done|].
  exfalso. apply Hnl. apply elem_of_app. right. apply list_elem_of_here.
Qed.

Section AlphabetOnly.
Context `{rt : PyRuntime}.

(** A generated word is made of a part of the base and the add text of a
    rule: it holds a newline only if one of them does. *)
Lemma generated_no_newline (base flags : list N) (rules : AffRules)
    (word_length : Z) (blocked : option (gset (list N))) (w : list N) :
  NL ∉ base →
  (∀ flag strip_ add cond,
     (strip_, add, cond) ∈ default [] (sfx rules !! flag)
     ∨ (strip_, add, cond) ∈ default [] (pfx rules !! flag) → NL ∉ add) →
  w ∈ _generate_affixed_candidates base flags rules word_length blocked →
  NL ∉ w.
Proof.
  intros Hbase Hrules. unfold _generate_affixed_candidates.
  intros (flag & Hw & Hflag)%list_elem_of_bind.
  apply elem_of_app in Hw as [Hw|Hw];
    apply list_elem_of_omap in Hw as ([[strip_ add] cond] & Hrule & Hstep).
  - assert (Hadd : NL ∉ add) by (eapply Hrules; left; exact Hrule).
    unfold sfx_step in Hstep. destruct (suffix_blocked blocked add); [done|].
    destruct (sfx_stem base strip_) as [stem|] eqn:Hstem; simpl in Hstep; [|done].
    destruct (cond_fails _ _); [done|]. unfold kept in Hstep.
    destruct (keeps _ _); [|done]. injection Hstep as <-.
    apply sfx_stem_spec in Hstem. subst base.
    rewrite elem_of_app in Hbase |- *. tauto.
  - assert (Hadd : NL ∉ add) by (eapply Hrules; right; exact Hrule).
    unfold pfx_step in Hstep.
    destruct (pfx_stem base strip_) as [stem|] eqn:Hstem; simpl in Hstep; [|done].
    destruct (cond_fails _ _); [done|]. unfold kept in Hstep.
    destruct (keeps _ _); [|done]. injection Hstep as <-.
    apply pfx_stem_spec in Hstem. subst base.
    rewrite elem_of_app in Hbase |- *. tauto.
Qed.

Lemma expand_letters_only (entries : list (list N * list N)) (rules : AffRules)
    (word_length : Z) (blocked : option (gset (list N))) (w : list N) :
  (∀ base flags, (base, flags) ∈ entries → NL ∉ base) →
  (∀ flag strip_ add cond,
     (strip_, add, cond) ∈ default [] (sfx rules !! flag)
     ∨ (strip_, add, cond) ∈ default [] (pfx rules !! flag) → NL ∉ add) →
  w ∈ expand_with_affixes entries rules word_length blocked →
  Forall (λ c, letter c = true) w.
Proof.
  intros Hentries Hrules Hw.
  destruct (expand_with_affixes_keeps _ _ _ _ _ Hw) as [_ Hre].
  apply letters_only; [done|].
  apply expand_with_affixes_elem in Hw as (base & flags & Hin & [[-> _]|Hgen]).
  - by eapply Hentries.
  - eapply generated_no_newline; [by eapply Hentries|exact Hrules|exact Hgen].
Qed.


End AlphabetOnly.


Lemma expand_with_affixes_shape_witness :
  len (py "runs") = 4 ∧ letters_then_newline (py "runs").
Proof.
  apply (expand_with_affixes_shape (rt := ascii_runtime)
           [(py "run", py "S")] plural_rules 4 None (py "runs")).
  apply (expand_with_affixes_elem (rt := ascii_runtime)).
  exists (py "run"), (py "S"). split; [apply list_elem_of_here|].
  right. vm_compute. apply list_elem_of_here.
Defined.

Lemma expand_with_affixes_no_rules_witness :
  py "cats" ∈ expand_with_affixes (rt := ascii_runtime)
                [(py "cat", py ""); (py "cats", py "")] AffRules_empty 4 None
  ↔ py "cats" ∈ [(py "cat", py ""); (py "cats", py "")].*1
    ∧ keeps 4 (py "cats") = true.
Proof.
  apply (expand_with_affixes_no_rules (rt := ascii_runtime)).
  intros base flags flag _ _. split; apply lookup_empty.
Defined.

Lemma generated_by_one_rule_witness :
  ∃ flag strip_ add cond stem,
    flag ∈ py "S"
    ∧ (((strip_, add, cond) ∈ default [] (sfx plural_rules !! [flag])
        ∧ py "run" = stem ++ strip_ ∧ py "runs" = stem ++ add)
       ∨ ((strip_, add, cond) ∈ default [] (pfx plural_rules !! [flag])
          ∧ py "run" = strip_ ++ stem ∧ py "runs" = add ++ stem)).
Proof.
  apply (generated_by_one_rule (rt := ascii_runtime) (py "run") (py "S") plural_rules 4 None).
  vm_compute. apply list_elem_of_here.
Defined.

(** ** Pruning and gathering *)

Section Gathering.
Context `{rt : PyRuntime}.

Lemma looks_suffixed_spec (blocked_suffixes normalized_catalog : gset (list N))
    (word : list N) :
  looks_suffixed blocked_suffixes normalized_catalog word = true
  ↔ ∃ suffix stem, suffix ∈ blocked_suffixes ∧ suffix ≠ [] ∧ stem ≠ []
        ∧ str_lower word = stem ++ suffix ∧ stem ∈ normalized_catalog.
Proof.
  unfold looks_suffixed. rewrite existsb_exists. split.
  - intros (suffix & Hin & Hs). apply list_elem_of_In, elem_of_elements in Hin.
    apply andb_true_iff in Hs as [[Hne Hend]%andb_true_iff Hstem].
    apply endswith_spec in Hend as [stem Hlower].
    rewrite Hlower, drop_last_app in Hstem.
    apply andb_true_iff in Hstem as [Hsne Hcat%bool_decide_eq_true].
    exists suffix, stem. split_and!; try done; by intros ->.
  - intros (suffix & stem & Hin & Hne & Hsne & Hlower & Hcat).
    exists suffix. split; [by apply list_elem_of_In, elem_of_elements|].
    rewrite Hlower, drop_last_app.
    rewrite (proj2 (endswith_spec (stem ++ suffix) suffix)) by eauto.
    rewrite bool_decide_eq_true_2 by done.
    by destruct suffix, stem.
Qed.

(** X12. [_prune_blocked_suffix_bases] keeps exactly the words that are not,
    in lower case, a non-empty stem from the lower-cased catalog followed by
    a non-empty blocked suffix. *)
Theorem prune_blocked_suffix_bases_spec (words blocked_suffixes catalog : gset (list N))
    (w : list N) :
  w ∈ _prune_blocked_suffix_bases words blocked_suffixes catalog
  ↔ w ∈ words
    ∧ ¬ ∃ suffix stem, suffix ∈ blocked_suffixes ∧ suffix ≠ [] ∧ stem ≠ []
          ∧ str_lower w = stem ++ suffix
          ∧ stem ∈ (set_map str_lower catalog : gset (list N)).
Proof.
  unfold _prune_blocked_suffix_bases.
  destruct (bool_decide (blocked_suffixes = ∅)) eqn:Hb; simpl.
  - apply bool_decide_eq_true in Hb as ->. split; [|by intros [? _]].
    intros Hw. split; [done|]. by intros (suffix & stem & []%elem_of_empty & _).
  - destruct (bool_decide (words = ∅)) eqn:Hwords.
    + apply bool_decide_eq_true in Hwords as ->. split; [by intros ?%elem_of_empty|].
      by intros [?%elem_of_empty _].
    + rewrite elem_of_filter, <- looks_suffixed_spec.
      destruct (looks_suffixed _ _ w); naive_solver.
Qed.

Lemma prune_subseteq (words blocked_suffixes catalog : gset (list N)) w :
  w ∈ _prune_blocked_suffix_bases words blocked_suffixes catalog → w ∈ words.
Proof.
  unfold _prune_blocked_suffix_bases. destruct (_ || _); [done|].
  by intros [_ ?]%elem_of_filter.
Qed.

(** X13. After a successful [_collect_dictionary_word_data], every word of
    the combined candidate set has the target length, every base word is a
    catalog word, every affixed word matches the alphabet pattern, and the
    catalog is not empty. *)
Theorem collect_dictionary_word_data_sound (fs : FileSystem) (dict_folder lang : list N)
    (word_length : Z) (data : DictionaryWordData) :
  _collect_dictionary_word_data fs dict_folder word_length lang = Ok data →
  (∀ w, w ∈ combined data → len w = word_length)
  ∧ (∀ w, w ∈ base_words data → w ∈ catalog data)
  ∧ (∀ w, w ∈ affixed_words data → letters_then_newline w)
  ∧ catalog data ≠ ∅.
Proof.
  unfold _collect_dictionary_word_data.
  destruct (_find_matching_dict_pairs fs dict_folder) as [dict_pairs|]; [|done].
  destruct (_load_dictionary_components _ _ _ _) as [[combined_rules all_entries]|]; [|done].
  destruct (nonempty all_entries) eqn:Hne; simpl; [|done].
  intros [= <-]. unfold combined. simpl.
  assert (Hbase : ∀ w,
    w ∈ (list_to_set (filter (λ e, len e.1 = word_length) all_entries).*1 : gset (list N)) →
    len w = word_length ∧ w ∈ (list_to_set all_entries.*1 : gset (list N))).
  { intros w Hw. apply elem_of_list_to_set, list_elem_of_fmap in Hw as ([b f] & -> & Hin).
    apply list_elem_of_filter in Hin as [Hlen Hin]. split; [done|].
    apply elem_of_list_to_set, list_elem_of_fmap. by exists (b, f). }
  split_and!.
  - intros w [Hw%prune_subseteq|Hw%prune_subseteq]%elem_of_union.
    + by apply Hbase.
    + by apply expand_with_affixes_keeps in Hw as [? _].
  - intros w Hw%prune_subseteq. by apply Hbase.
  - intros w Hw%prune_subseteq. apply expand_with_affixes_keeps in Hw as [_ Hre].
    by apply letters_re_match_spec.
  - destruct all_entries as [|[b f] all_entries]; [done|].
    intros Hempty. assert (Hin : b ∈ (list_to_set ((b, f) :: all_entries).*1 : gset (list N))).
    { apply elem_of_list_to_set. apply list_elem_of_here. }
    rewrite Hempty in Hin. by apply elem_of_empty in Hin.
Qed.

End Gathering.

Lemma collect_dictionary_word_data_sound_witness :
  ∃ data,
    _collect_dictionary_word_data (rt := ascii_runtime) cats_fs (py "dict") 4 (py "en") = Ok data
    ∧ (∀ w, w ∈ combined data → len w = 4)
    ∧ (∀ w, w ∈ base_words data → w ∈ catalog data)
    ∧ (∀ w, w ∈ affixed_words data → letters_then_newline w)
    ∧ catalog data ≠ ∅.
Proof.
  eexists. split; [vm_compute; reflexivity|].
  apply (collect_dictionary_word_data_sound (rt := ascii_runtime) cats_fs (py "dict") (py "en")).
  vm_compute. reflexivity.
Defined.

(** ** What the filters let through *)

Section FilterResults.
Context `{rt : PyRuntime}.

Lemma acceptable_passes config w : acceptable config w = true ↔ passes config w.
Proof.
  unfold acceptable, passes, _matches_prefix, _matches_suffix.
  rewrite !andb_true_iff, !negb_true_iff, orb_false_iff, bool_decide_eq_false.
  split.
  - intros [[[Ha Hp] Hb] [Hpre Hsuf]]. split_and!; try done.
    + intros prefix rest Hin Heq.
      assert (existsb (λ prefix, startswith (str_lower w) prefix) (prefixes config) = true)
        as Ht; [|congruence].
      apply existsb_exists. exists prefix.
      split; [by apply list_elem_of_In|]. apply startswith_spec. eauto.
    + intros suffix stem Hin Heq.
      assert (existsb (λ suffix, endswith (str_lower w) suffix) (suffixes config) = true)
        as Ht; [|congruence].
      apply existsb_exists. exists suffix.
      split; [by apply list_elem_of_In|]. apply endswith_spec. eauto.
  - intros (Ha & Hp & Hb & Hpre & Hsuf). split_and!; try done.
    + apply not_true_iff_false. rewrite existsb_exists.
      intros (prefix & Hin%list_elem_of_In & [rest Heq]%startswith_spec). by eapply Hpre.
    + apply not_true_iff_false. rewrite existsb_exists.
      intros (suffix & Hin%list_elem_of_In & [stem Heq]%endswith_spec). by eapply Hsuf.
Qed.

(** X14. The list [LanguageFilter.apply] returns is in ascending order, holds
    only words of its input, no two of them with the same lower-case form,
    and each of them alphabetic, free of profanity, off the blacklist and
    without a banned prefix or suffix. *)
Theorem LanguageFilter_apply_sound (config : FilterConfig) (words : list (list N))
    (cat : gset (list N)) :
  Sorted str_le (LanguageFilter_apply config words cat)
  ∧ NoDup (str_lower <$> LanguageFilter_apply config words cat)
  ∧ ∀ w, w ∈ LanguageFilter_apply config words cat → w ∈ words ∧ passes config w.
Proof.
  split_and!.
  - apply LanguageFilter_apply_Sorted.
  - apply LanguageFilter_apply_NoDup_lower.
  - intros w Hw. split; [by eapply LanguageFilter_apply_elem_of|].
    apply acceptable_passes.
    pose proof (LanguageFilter_apply_acceptable config words cat) as Hall.
    rewrite Forall_forall in Hall. by apply Hall.
Qed.

Lemma apply_loop_seen_mono config st words x :
  x ∈ st.2 → x ∈ (foldl (apply_step config) st words).2.
Proof.
  revert st. induction words as [|w words IH]; intros st Hx; [done|].
  cbn [foldl]. apply IH. unfold apply_step.
  destruct (negb (acceptable config w)); [done|].
  case_bool_decide; [done|]. simpl. apply elem_of_union. by left.
Qed.

Lemma apply_loop_seen config st words w :
  w ∈ words → acceptable config w = true →
  str_lower w ∈ (foldl (apply_step config) st words).2.
Proof.
  revert st. induction words as [|x words IH]; intros st Hw Hacc.
  - by apply elem_of_nil in Hw.
  - cbn [foldl]. apply elem_of_cons in Hw as [->|Hw]; [|by apply IH].
    apply apply_loop_seen_mono. unfold apply_step. rewrite Hacc. simpl.
    case_bool_decide; [done|]. simpl. apply elem_of_union. right. by apply elem_of_singleton.
Qed.

(** X15. [LanguageFilter.apply] loses no acceptable word up to case: for
    every input word that passes the checks, the result holds a word with the
    same lower-case form. *)
Theorem LanguageFilter_apply_complete (config : FilterConfig) (words : list (list N))
    (cat : gset (list N)) (w : list N) :
  w ∈ words → passes config w →
  ∃ w', w' ∈ LanguageFilter_apply config words cat ∧ str_lower w' = str_lower w.
Proof.
  intros Hw Hp%acceptable_passes.
  pose proof (apply_loop_seen config ([], ∅) words w Hw Hp) as Hseen.
  destruct (apply_loop_invariant config ([], ∅) words (apply_invariant_init config))
    as (_ & _ & Hiff).
  apply Hiff, list_elem_of_fmap in Hseen as (w' & Heq & Hin).
  exists w'. split; [|done]. unfold LanguageFilter_apply. by rewrite sorted_Permutation.
Qed.

Lemma dict_fromkeys_elem_of seen words w :
  w ∈ dict_fromkeys seen words ↔ w ∈ words ∧ w ∉ seen.
Proof.
  split.
  - intros Hw. split; [by eapply dict_fromkeys_subseteq|by eapply dict_fromkeys_not_seen].
  - revert seen. induction words as [|x words IH]; intros seen [Hw Hseen].
    + by apply elem_of_nil in Hw.
    + simpl. case_bool_decide as Hx.
      * apply IH. split; [|done].
        apply elem_of_cons in Hw as [->|Hw]; [done|done].
      * destruct (decide (w = x)) as [->|Hne]; [apply list_elem_of_here|].
        apply list_elem_of_further, IH. split.
        -- apply elem_of_cons in Hw as [->|Hw]; done.
        -- intros [->|Hin]%elem_of_cons; done.
Qed.

(** X16. With filters disabled, [filter_candidates] returns the words of its
    input, each once, in ascending order. *)
Theorem filter_candidates_disabled (ws : list (list N)) (lang : list N)
    (cat : gset (list N)) :
  Sorted str_le (filter_candidates ws lang cat false)
  ∧ NoDup (filter_candidates ws lang cat false)
  ∧ ∀ w, w ∈ filter_candidates ws lang cat false ↔ w ∈ ws.
Proof.
  unfold filter_candidates. simpl. split_and!.
  - apply sorted_unique_Sorted.
  - apply sorted_unique_NoDup.
  - intros w. unfold sorted_unique. rewrite sorted_Permutation, dict_fromkeys_elem_of.
    split; [by intros [? _]|]. intros Hw. split; [done|]. by intros ?%elem_of_nil.
Qed.

(** X17. With filters enabled, [filter_candidates] returns, in ascending
    order, words of its input that pass the global checks and, when the
    language code has an archetype, the checks of that archetype; no two of
    them share a lower-case form. *)
Theorem filter_candidates_enabled_sound (ws : list (list N)) (lang : list N)
    (cat : gset (list N)) :
  let out := filter_candidates ws lang cat true in
  Sorted str_le out
  ∧ NoDup (str_lower <$> out)
  ∧ ∀ w, w ∈ out →
      w ∈ ws
      ∧ passes (load_filter_config (py "global")) w
      ∧ ∀ archetype, _language_archetype lang = Some archetype →
          passes (load_filter_config archetype) w.
Proof.
  unfold filter_candidates. simpl.
  set (glob := _get_filter_for_archetype (py "global")).
  set (x1 := if nonempty (sorted_unique ws)
             then LanguageFilter_apply glob (sorted_unique ws) cat
             else sorted_unique ws).
  assert (Hx1 : x1 = LanguageFilter_apply glob (sorted_unique ws) cat).
  { subst x1. by destruct (sorted_unique ws). }
  clearbody x1. subst x1.
  assert (Hin : ∀ w, w ∈ sorted_unique ws → w ∈ ws).
  { intros w Hw. unfold sorted_unique in Hw. rewrite sorted_Permutation in Hw.
    by eapply dict_fromkeys_subseteq. }
  destruct (LanguageFilter_apply_sound glob (sorted_unique ws) cat) as (Hs1 & Hn1 & He1).
  destruct (_language_archetype lang) as [a|].
  - destruct (LanguageFilter_apply_sound (_get_filter_for_archetype a)
                (LanguageFilter_apply glob (sorted_unique ws) cat) cat) as (Hs2 & Hn2 & He2).
    split_and!; [done|done|]. intros w [Hw1 Hpa]%He2.
    apply He1 in Hw1 as [Hw0 Hpg]. split_and!; [by apply Hin|done|].
    by intros a' [= <-].
  - split_and!; [done|done|]. intros w [Hw0 Hpg]%He1.
    split_and!; [by apply Hin|done|done].
Qed.

Lemma split_once_before sep s a b :
  split_once sep s = Some (a, b) → s = a ++ sep :: b ∧ sep ∉ a.
Proof.
  revert a b. induction s as [|c s IH]; intros a b; simpl; [done|].
  destruct (N.eqb_spec c sep) as [->|Hne].
  - intros [= <- <-]. split; [done|]. by intros ?%elem_of_nil.
  - destruct (split_once sep s) as [[a' b']|]; simpl; [|done].
    intros [= <- <-]. destruct (IH a' b' eq_refl) as [-> Hnot].
    split; [done|]. intros [->|?]%elem_of_cons; done.
Qed.

Lemma split_once_None_iff sep s : split_once sep s = None → sep ∉ s.
Proof.
  induction s as [|c s IH]; simpl; [by intros _ ?%elem_of_nil|].
  destruct (N.eqb_spec c sep) as [->|Hne]; [done|].
  destruct (split_once sep s) as [[a' b']|]; simpl; [done|].
  intros _ [->|?]%elem_of_cons; [done|by apply IH].
Qed.

(** X18. An archetype returned by [_language_archetype] is never empty,
    holds no hyphen, and is the beginning of the stripped, lower-cased
    language code; no archetype is returned exactly when that code is empty or
    begins with a hyphen. *)
Theorem language_archetype_shape (lang : list N) :
  let normalized := str_lower (strip lang) in
  (∀ archetype, _language_archetype lang = Some archetype →
     archetype ≠ [] ∧ (DASH ∉ archetype) ∧ ∃ rest, normalized = archetype ++ rest)
  ∧ (_language_archetype lang = None
     ↔ normalized = [] ∨ ∃ rest, normalized = DASH :: rest).
Proof.
  intros normalized. unfold _language_archetype.
  change (str_lower (strip lang)) with normalized. clearbody normalized.
  destruct (nonempty normalized) eqn:Hne; cbn [negb].
  2:{ destruct normalized; [|done]. split; [done|]. split; auto. }
  assert (Hnil : normalized ≠ []) by (by destruct normalized).
  case_bool_decide as Hcls.
  { assert (Hdash : DASH ∉ normalized).
    { unfold _FILTER_CLASSES in Hcls.
      apply elem_of_cons in Hcls as [->|Hcls%list_elem_of_singleton].
      - intros Hd%list_elem_of_In. vm_compute in Hd. intuition discriminate.
      - subst normalized. intros Hd%list_elem_of_In. vm_compute in Hd.
        intuition discriminate. }
    split.
    - intros a [= <-]. split_and!; [done|done|]. exists []. by rewrite app_nil_r.
    - split; [done|]. intros [?|[rest ->]]; [done|].
      exfalso. apply Hdash, list_elem_of_here. }
  destruct (split_once DASH normalized) as [[a b]|] eqn:Hsplit.
  - apply split_once_before in Hsplit as [Heq Hnot]. split.
    + intros a'. destruct a as [|d a]; cbn [nonempty]; [done|]. intros [= <-].
      split_and!; [done|done|]. eauto.
    + destruct a as [|d a]; cbn [nonempty].
      * split; [|done]. intros _. right. eauto.
      * split; [done|]. intros [?|[rest Hr]]; [done|].
        exfalso. apply Hnot. rewrite Hr in Heq. simpl in Heq. injection Heq as <- _.
        apply list_elem_of_here.
  - apply split_once_None_iff in Hsplit. rewrite Hne. split.
    + intros a [= <-]. split_and!; [done|done|]. exists []. by rewrite app_nil_r.
    + split; [done|]. intros [?|[rest ->]]; [done|].
      exfalso. apply Hsplit, list_elem_of_here.
Qed.

End FilterResults.

Lemma LanguageFilter_apply_complete_witness :
  ∃ w', w' ∈ LanguageFilter_apply (rt := ascii_runtime) strict_config
               [py "happy"; py "Happy"; py "badly"] ∅
        ∧ str_lower (PyRuntime := ascii_runtime) w'
          = str_lower (PyRuntime := ascii_runtime) (py "Happy").
Proof.
  apply (LanguageFilter_apply_complete (rt := ascii_runtime)).
  - repeat constructor.
  - apply (acceptable_passes (rt := ascii_runtime)). vm_compute. reflexivity.
Defined.

(** ** No newline reaches the expansion *)

Lemma lstrip_elem c s : c ∈ lstrip s → c ∈ s.
Proof.
  induction s as [|d s IH]; simpl; [done|].
  destruct (is_space d); [|done]. intros ?%IH. by apply list_elem_of_further.
Qed.

Lemma rstrip_elem c s : c ∈ rstrip s → c ∈ s.
Proof.
  unfold rstrip. rewrite elem_of_reverse. intros ?%lstrip_elem. by apply elem_of_reverse.
Qed.

Lemma strip_elem c s : c ∈ strip s → c ∈ s.
Proof. unfold strip. by intros ?%rstrip_elem%lstrip_elem. Qed.

Lemma rstrip_newline s : rstrip (s ++ [NL]) = rstrip s.
Proof. unfold rstrip. by rewrite reverse_app. Qed.

Lemma lstrip_newline s :
  lstrip (s ++ [NL]) = match lstrip s with [] => [] | _ :: _ => lstrip s ++ [NL] end.
Proof.
  induction s as [|d s IH]; simpl; [done|]. by destruct (is_space d).
Qed.

Lemma strip_newline_elem c body : c ∈ strip (body ++ [NL]) → c ∈ body.
Proof.
  unfold strip. rewrite lstrip_newline.
  destruct (lstrip body) as [|d rest] eqn:Hl; [by intros ?%elem_of_nil|].
  rewrite rstrip_newline. intros ?%rstrip_elem. apply lstrip_elem. by rewrite Hl.
Qed.

(** A line of a file holds a newline at its end only. *)
Lemma split_keepends_shape s line :
  line ∈ split_keepends s →
  ∃ body, (NL ∉ body) ∧ (line = body ∨ line = body ++ [NL]).
Proof.
  revert line. induction s as [|c s IH]; intros line; simpl; [by intros ?%elem_of_nil|].
  destruct (N.eqb_spec c NL) as [Heq|Hne].
  - intros [->|Hin]%elem_of_cons; [|by apply IH]. subst c.
    exists []. split; [by intros ?%elem_of_nil|by right].
  - destruct (split_keepends s) as [|l ls].
    + intros ->%list_elem_of_singleton. exists [c]. split; [|by left].
      intros ?%list_elem_of_singleton. congruence.
    + intros [->|Hin]%elem_of_cons.
      * destruct (IH l) as (body & Hbody & Hl); [apply list_elem_of_here|].
        exists (c :: body). split.
        -- intros [?|?]%elem_of_cons; [by subst|done].
        -- destruct Hl as [->| ->]; [by left|by right].
      * apply IH. by apply list_elem_of_further.
Qed.

Lemma stripped_line_no_newline content line :
  line ∈ text_lines content → NL ∉ strip line.
Proof.
  intros (body & Hbody & [->| ->])%split_keepends_shape Hin; apply Hbody.
  - by apply strip_elem.
  - by apply strip_newline_elem.
Qed.

Lemma no_space_no_newline (s : list N) :
  Forall (λ c, is_space c = false) s → NL ∉ s.
Proof. rewrite Forall_forall. intros Hs Hin. by apply Hs in Hin. Qed.

Section NewlineFree.
Context `{rt : PyRuntime}.
Hypothesis normalize_no_newline : ∀ s, NL ∉ s → NL ∉ _normalize_word s.

Lemma dic_entry_no_newline stripped : NL ∉ stripped → NL ∉ (dic_entry stripped).1.
Proof.
  intros Hs. unfold dic_entry.
  destruct (split_once SLASH stripped) as [[a b]|] eqn:Hsplit; simpl.
  - apply normalize_no_newline. apply split_once_before in Hsplit as [-> _].
    intros Hin. apply Hs, elem_of_app. by left.
  - by apply normalize_no_newline.
Qed.

Lemma parse_dic_lines_no_newline first lines entry :
  (∀ line, line ∈ lines → NL ∉ strip line) →
  entry ∈ parse_dic_lines first lines → NL ∉ entry.1.
Proof.
  revert first. induction lines as [|line lines IH]; intros first Hlines; simpl;
    [by intros ?%elem_of_nil|].
  assert (Hrest : ∀ l, l ∈ lines → NL ∉ strip l).
  { intros l Hl. apply Hlines. by apply list_elem_of_further. }
  destruct (negb (nonempty (strip line))); [by apply IH|].
  destruct (first && str_isdigit (strip line)); [by apply IH|].
  intros [->|Hin]%elem_of_cons; [|by eapply IH].
  apply dic_entry_no_newline, Hlines, list_elem_of_here.
Qed.

Lemma parse_dic_entries_no_newline fs dic_path entries entry :
  parse_dic_entries fs dic_path = Ok entries → entry ∈ entries → NL ∉ entry.1.
Proof.
  unfold parse_dic_entries. destruct (fs_files fs !! dic_path) as [content|]; [|done].
  intros [= <-]. apply parse_dic_lines_no_newline.
  intros line. apply stripped_line_no_newline.
Qed.

Lemma parse_aff_rules_no_newline fs aff_path b flag strip_ add cond :
  (strip_, add, cond) ∈ default [] (table b (parse_aff_rules fs aff_path) !! flag) →
  NL ∉ add.
Proof.
  assert (Hgen : ∀ lines rules,
    (∀ b flag l, table b rules !! flag = Some l → stored_ok flag l) →
    ∀ b flag l, table b (foldl parse_aff_line rules lines) !! flag = Some l →
                stored_ok flag l).
  { induction lines as [|line lines IH]; intros rules Hinv; [done|].
    cbn [foldl]. by apply IH, parse_aff_line_stored_ok. }
  unfold parse_aff_rules. destruct (fs_files fs !! aff_path) as [content|].
  - destruct (table b _ !! flag) as [l|] eqn:Hl; simpl; [|by intros ?%elem_of_nil].
    intros Hin. apply Hgen in Hl as (_ & _ & Hall); [|intros b' f' l'; by destruct b'].
    apply no_space_no_newline. by apply Hall in Hin as (_ & _ & _ & _ & ?).
  - destruct b; simpl; rewrite lookup_empty; by intros ?%elem_of_nil.
Qed.

Lemma load_dictionary_components_no_newline fs dict_pairs rules0 entries0 rules entries :
  (∀ entry, entry ∈ entries0 → NL ∉ entry.1) →
  (∀ b flag strip_ add cond,
     (strip_, add, cond) ∈ default [] (table b rules0 !! flag) → NL ∉ add) →
  _load_dictionary_components fs dict_pairs rules0 entries0 = Ok (rules, entries) →
  (∀ entry, entry ∈ entries → NL ∉ entry.1)
  ∧ (∀ b flag strip_ add cond,
       (strip_, add, cond) ∈ default [] (table b rules !! flag) → NL ∉ add).
Proof.
  revert rules0 entries0.
  induction dict_pairs as [|[aff_path dic_path] dict_pairs IH]; intros rules0 entries0 He Hr.
  - intros [= <- <-]. by split.
  - cbn [_load_dictionary_components].
    destruct (parse_dic_entries fs dic_path) as [new_entries|] eqn:Hdic; [|done].
    apply IH.
    + intros entry [Hin|Hin]%elem_of_app; [by apply He|].
      by eapply parse_dic_entries_no_newline.
    + intros b flag strip_ add cond.
      destruct b; simpl; rewrite merge_rules_default; intros [Hin|Hin]%elem_of_app.
      * exact (Hr true flag _ _ _ Hin).
      * exact (parse_aff_rules_no_newline fs aff_path true flag _ _ _ Hin).
      * exact (Hr false flag _ _ _ Hin).
      * exact (parse_aff_rules_no_newline fs aff_path false flag _ _ _ Hin).
Qed.

(** The entries and rules that [_collect_dictionary_word_data] passes to
    [expand_with_affixes] hold no newline, so that the affixed words it
    gathers consist solely of letters of the class [a-zäöüß]. *)
Lemma collect_affixed_letters_only (fs : FileSystem) (dict_folder lang : list N)
    (word_length : Z) (data : DictionaryWordData) (w : list N) :
  _collect_dictionary_word_data fs dict_folder word_length lang = Ok data →
  w ∈ affixed_words data →
  len w = word_length ∧ Forall (λ c, letter c = true) w.
Proof.
  unfold _collect_dictionary_word_data.
  destruct (_find_matching_dict_pairs fs dict_folder) as [dict_pairs|]; [|done].
  destruct (_load_dictionary_components _ _ _ _) as [[combined_rules all_entries]|] eqn:Hload;
    [|done].
  destruct (nonempty all_entries); simpl; [|done].
  intros [= <-]. simpl. intros Hw%prune_subseteq.
  apply load_dictionary_components_no_newline in Hload as [Hentries Hrules].
  - split; [by apply expand_with_affixes_keeps in Hw as [? _]|].
    eapply expand_letters_only; [| |exact Hw].
    + intros base flags Hin. exact (Hentries _ Hin).
    + intros flag strip_ add cond [Hin|Hin].
      * exact (Hrules true _ _ _ _ Hin).
      * exact (Hrules false _ _ _ _ Hin).
  - by intros entry ?%elem_of_nil.
  - intros b flag strip_ add cond. destruct b; simpl; rewrite lookup_empty;
      by intros ?%elem_of_nil.
Qed.

End NewlineFree.

(** ** The caches *)

Section Caches.
Context `{rt : PyRuntime}.



Lemma filter_candidates_enabled_ordered (ws : list (list N)) (lang : list N)
    (cat : gset (list N)) :
  Sorted str_le (filter_candidates ws lang cat true)
  ∧ NoDup (filter_candidates ws lang cat true)
  ∧ ∀ w, w ∈ filter_candidates ws lang cat true → w ∈ ws.
Proof.
  unfold filter_candidates. simpl.
  set (glob := _get_filter_for_archetype (py "global")).
  set (x1 := if nonempty (sorted_unique ws)
             then LanguageFilter_apply glob (sorted_unique ws) cat
             else sorted_unique ws).
  assert (Hx1 : x1 = LanguageFilter_apply glob (sorted_unique ws) cat).
  { subst x1. by destruct (sorted_unique ws). }
  clearbody x1. subst x1.
  assert (Hin : ∀ w, w ∈ sorted_unique ws → w ∈ ws).
  { intros w Hw. unfold sorted_unique in Hw. rewrite sorted_Permutation in Hw.
    by eapply dict_fromkeys_subseteq. }
  destruct (_language_archetype lang) as [a|]; split_and!;
    try apply LanguageFilter_apply_Sorted;
    try (apply NoDup_lower, LanguageFilter_apply_NoDup_lower).
  - intros w Hw%LanguageFilter_apply_elem_of%LanguageFilter_apply_elem_of. by apply Hin.
  - intros w Hw%LanguageFilter_apply_elem_of. by apply Hin.
Qed.

Lemma sorted_elements_ordered (X : gset (list N)) :
  Sorted str_le (sorted (elements X)) ∧ NoDup (sorted (elements X))
  ∧ ∀ w, w ∈ sorted (elements X) ↔ w ∈ X.
Proof.
  split_and!.
  - apply sorted_Sorted.
  - rewrite sorted_Permutation. apply NoDup_elements.
  - intros w. by rewrite sorted_Permutation, elem_of_elements.
Qed.

Lemma collect_combined_len (fs : FileSystem) (dict_folder lang : list N)
    (word_length : Z) (data : DictionaryWordData) (w : list N) :
  _collect_dictionary_word_data fs dict_folder word_length lang = Ok data →
  w ∈ combined data → len w = word_length.
Proof.
  unfold _collect_dictionary_word_data.
  destruct (_find_matching_dict_pairs fs dict_folder) as [dict_pairs|]; [|done].
  destruct (_load_dictionary_components _ _ _ _) as [[combined_rules all_entries]|]; [|done].
  destruct (nonempty all_entries); simpl; [|done].
  intros [= <-]. unfold combined. simpl.
  intros [Hw%prune_subseteq|Hw%prune_subseteq]%elem_of_union.
  - apply elem_of_list_to_set, list_elem_of_fmap in Hw as ([b f] & -> & Hin).
    by apply list_elem_of_filter in Hin as [Hlen _].
  - by apply expand_with_affixes_keeps in Hw as [? _].
Qed.

(** X22. A list that [_load_or_build_filtered_solutions] builds, the cache
    giving nothing or filters being disabled, is not empty, in ascending
    order and free of duplicates, and all its words have the target length. *)
Theorem load_or_build_fresh_list (fs : FileSystem) (lang dict_folder : list N)
    (word_length : Z) (enable_filters : bool) (words : list (list N)) :
  (enable_filters = true → load_filtered_solution_cache fs lang word_length = []) →
  (_load_or_build_filtered_solutions fs lang word_length dict_folder enable_filters).1
    = Ok words →
  words ≠ [] ∧ Sorted str_le words ∧ NoDup words
  ∧ ∀ w, w ∈ words → len w = word_length.
Proof.
  intros Hcache. unfold _load_or_build_filtered_solutions.
  assert (Hc : (if enable_filters then load_filtered_solution_cache fs lang word_length
                else []) = []) by (destruct enable_filters; auto).
  rewrite Hc. rewrite andb_false_r.
  destruct (_collect_dictionary_word_data _ _ _ _) as [data|] eqn:Hdata; [|done].
  destruct (sorted_elements_ordered (combined data)) as (Hs & Hn & He).
  assert (Hlen : ∀ w, w ∈ sorted (elements (combined data)) → len w = word_length).
  { intros w Hw%He. by eapply collect_combined_len. }
  destruct (sorted (elements (combined data))) as [|g generated] eqn:Hg; [done|].
  cbn [nonempty negb].
  destruct enable_filters; cbn [negb].
  - unfold apply_language_filters.
    destruct (filter_candidates_enabled_ordered (g :: generated) lang (catalog data))
      as (Hs' & Hn' & He').
    destruct (filter_candidates (g :: generated) lang (catalog data) true)
      as [|f filtered]; cbn [nonempty negb];
      destruct (save_filtered_solution_cache _ _ _ _) as [[u|e] fs'];
      cbn [fst]; try done; intros [= <-].
    + by split_and!.
    + split_and!; [done|done|done|]. intros w Hw. by apply Hlen, He'.
  - cbn [fst]. intros [= <-]. by split_and!.
Qed.

(** X23. A built list is found again: when a call with filters enabled has
    built and saved a list of words that are non-empty and free of
    whitespace, the next call on the resulting file system returns the same
    list from the cache and changes nothing. *)
Theorem load_or_build_then_cached (fs fs' : FileSystem) (lang dict_folder : list N)
    (word_length : Z) (words : list (list N)) :
  load_filtered_solution_cache fs lang word_length = [] →
  _load_or_build_filtered_solutions fs lang word_length dict_folder true = (Ok words, fs') →
  Forall plain_word words →
  _load_or_build_filtered_solutions fs' lang word_length dict_folder true = (Ok words, fs').
Proof.
  intros Hcache Hrun Hplain.
  assert (Hshape : Sorted str_le words ∧ NoDup words ∧ words ≠ []
                   ∧ save_filtered_solution_cache fs lang word_length words = (Ok (), fs')).
  { revert Hrun. unfold _load_or_build_filtered_solutions. rewrite Hcache. simpl.
    destruct (_collect_dictionary_word_data _ _ _ _) as [data|]; [|done].
    destruct (sorted_elements_ordered (combined data)) as (Hs & Hn & _).
    destruct (sorted (elements (combined data))) as [|g generated]; [done|].
    cbn [nonempty negb]. unfold apply_language_filters.
    destruct (filter_candidates_enabled_ordered (g :: generated) lang (catalog data))
      as (Hs' & Hn' & _).
    destruct (filter_candidates (g :: generated) lang (catalog data) true)
      as [|f filtered]; cbn [nonempty negb];
      destruct (save_filtered_solution_cache _ _ _ _) as [[[]|e] fs''] eqn:Hsave;
      try done; intros [= <- <-]; by split_and!. }
  destruct Hshape as (Hs & Hn & Hne & Hsave).
  unfold save_filtered_solution_cache in Hsave.
  apply write_words_Ok in Hsave as (_ & _ & ->).
  assert (Hload : load_filtered_solution_cache
                    (fs_write (solution_cache_path lang word_length)
                       (concat ((λ word, word ++ [NL]) <$> sorted_unique words)) fs)
                    lang word_length = words).
  { unfold load_filtered_solution_cache.
    simpl. rewrite lookup_insert_eq.
    rewrite sorted_unique_id by done. by apply read_back. }
  unfold _load_or_build_filtered_solutions at 1. rewrite Hload. simpl.
  by destruct words.
Qed.

End Caches.


Lemma load_or_build_fresh_list_witness :
  [py "cats"] ≠ [] ∧ Sorted str_le [py "cats"] ∧ NoDup [py "cats"]
  ∧ ∀ w, w ∈ [py "cats"] → len w = 4.
Proof.
  apply (load_or_build_fresh_list (rt := ascii_runtime) cats_fs (py "en") (py "dict") 4 true).
  - intros _. vm_compute. reflexivity.
  - vm_compute. reflexivity.
Defined.

Lemma load_or_build_then_cached_witness :
  _load_or_build_filtered_solutions (rt := ascii_runtime)
    (save_filtered_solution_cache (rt := ascii_runtime) cats_fs (py "en") 4 [py "cats"]).2
    (py "en") 4 (py "dict") true
  = (Ok [py "cats"],
     (save_filtered_solution_cache (rt := ascii_runtime) cats_fs (py "en") 4 [py "cats"]).2).
Proof.
  apply (load_or_build_then_cached (rt := ascii_runtime) cats_fs).
  - vm_compute. reflexivity.
  - vm_compute. reflexivity.
  - repeat constructor; done.
Defined.

(** ** The validator *)

Section ValidatorProperties.
Context `{rt : PyRuntime}.

(** X24. Every solution of the target length is a valid guess: when
    [build_validator] succeeds, its [is_valid] accepts each word of the
    solutions list that has the target length, whatever the cache or the
    dictionaries hold. *)
Theorem build_validator_accepts_solutions (fs fs' : FileSystem)
    (dict_folder lang : list N) (solutions : list (list N)) (word_length : Z)
    (allowed_words : gset (list N)) (w : list N) :
  build_validator fs dict_folder solutions lang word_length = (Ok allowed_words, fs') →
  w ∈ solutions → len w = word_length →
  is_valid allowed_words lang w = true.
Proof.
  intros Hbuild Hw Hlen.
  assert (Hin : _normalize_word w ∈ allowed_words).
  { assert (Hfrom : _normalize_word w ∈
      (list_to_set (_normalize_word <$> _filter_solutions_by_length solutions word_length)
         : gset (list N))).
    { apply elem_of_list_to_set, list_elem_of_fmap_2.
      unfold _filter_solutions_by_length. by apply list_elem_of_filter. }
    revert Hbuild. unfold build_validator.
    destruct (negb (bool_decide (load_cache fs lang word_length = ∅))).
    - intros [= <- _]. apply elem_of_union. by right.
    - destruct (_collect_dictionary_word_data _ _ _ _) as [data|]; [|done].
      destruct (save_cache _ _ _ _) as [[u|e] fs'']; [|done].
      intros [= <- _]. apply elem_of_union. by right. }
  unfold is_valid. by rewrite bool_decide_eq_true_2.
Qed.

End ValidatorProperties.

Lemma german_ascii_plain ch : german_special ch = false → german_ascii ch = [ch].
Proof.
  unfold german_special, german_ascii.
  destruct (ch =? 228)%N, (ch =? 246)%N, (ch =? 252)%N, (ch =? 223)%N; done.
Qed.

Lemma german_ascii_no_special ch :
  Forall (λ c, german_special c = false) (german_ascii ch).
Proof.
  unfold german_ascii.
  destruct (ch =? 228)%N eqn:H1; [by repeat constructor|].
  destruct (ch =? 246)%N eqn:H2; [by repeat constructor|].
  destruct (ch =? 252)%N eqn:H3; [by repeat constructor|].
  destruct (ch =? 223)%N eqn:H4; [by repeat constructor|].
  constructor; [|constructor]. unfold german_special. by rewrite H1, H2, H3, H4.
Qed.

(** X25. [_transliterate_german] leaves a word without ä, ö, ü, ß as it is;
    its result never holds one of these letters, so transliterating twice is
    transliterating once; and the result is at least as long as the word and
    at most twice as long. *)
Theorem transliterate_german_ascii (word : list N) :
  (Forall (λ c, german_special c = false) word → _transliterate_german word = word)
  ∧ Forall (λ c, german_special c = false) (_transliterate_german word)
  ∧ _transliterate_german (_transliterate_german word) = _transliterate_german word
  ∧ (length word ≤ length (_transliterate_german word) ≤ 2 * length word)%nat.
Proof.
  assert (Hid : ∀ w, Forall (λ c, german_special c = false) w → _transliterate_german w = w).
  { induction 1 as [|c w Hc _ IH]; [done|].
    unfold _transliterate_german in *. rewrite bind_cons, IH, german_ascii_plain by done.
    done. }
  assert (Hno : Forall (λ c, german_special c = false) (_transliterate_german word)).
  { unfold _transliterate_german. induction word as [|c w IH]; [constructor|].
    rewrite bind_cons. apply Forall_app. split; [apply german_ascii_no_special|done]. }
  split; [apply Hid|]. split; [done|]. split; [by apply Hid|]. clear Hno.
  unfold _transliterate_german. induction word as [|c w IH]; [simpl; lia|].
  rewrite bind_cons, length_app. cbn [length].
  assert (1 ≤ length (german_ascii c) ≤ 2)%nat; [|lia].
  unfold german_ascii.
  destruct (c =? 228)%N, (c =? 246)%N, (c =? 252)%N, (c =? 223)%N; simpl; lia.
Qed.

Lemma build_validator_accepts_solutions_witness :
  ∃ allowed_words fs',
    build_validator (rt := ascii_runtime) cats_fs (py "dict")
      [py "cat"; py "bird"] (py "en") 4 = (Ok allowed_words, fs')
    ∧ is_valid (rt := ascii_runtime) allowed_words (py "en") (py "bird") = true.
Proof.
  eexists _, _. split; [vm_compute; reflexivity|].
  eapply (build_validator_accepts_solutions (rt := ascii_runtime) cats_fs _ (py "dict")
            (py "en") [py "cat"; py "bird"] 4).
  - vm_compute. reflexivity.
  - repeat constructor.
  - reflexivity.
Defined.

Lemma transliterate_german_ascii_witness :
  _transliterate_german (py "strasse") = py "strasse".
Proof.
  destruct (transliterate_german_ascii (py "strasse")) as [Hid _].
  apply Hid. repeat constructor.
Defined.

(** ** Choosing the secret *)

Lemma random_choice_elem_of r first others :
  random_choice r first others ∈ first :: others.
Proof.
  unfold random_choice.
  destruct ((first :: others) !! (r mod length (first :: others))%nat) as [w|] eqn:Hw.
  - simpl. by eapply list_elem_of_lookup_2.
  - apply list_elem_of_here.
Qed.

(** X26. [pick_unused_solution] returns a candidate of the target length
    that has not been used, and returns [None] exactly when every candidate
    of that length has been used. *)
Theorem pick_unused_solution_spec (r : nat) (used : gset (list N))
    (candidates : list (list N)) (word_length : Z) :
  (∀ w, pick_unused_solution r used candidates word_length = Some w →
        w ∈ candidates ∧ len w = word_length ∧ w ∉ used)
  ∧ (pick_unused_solution r used candidates word_length = None
     ↔ ∀ w, w ∈ candidates → len w = word_length → w ∈ used).
Proof.
  unfold pick_unused_solution.
  destruct (filter (λ w, len w = word_length ∧ w ∉ used) candidates)
    as [|first others] eqn:Hf.
  - split; [done|]. split; [|done]. intros _ w Hw Hlen.
    destruct (decide (w ∈ used)) as [|Hnot]; [done|].
    assert (Hin : w ∈ filter (λ w, len w = word_length ∧ w ∉ used) candidates)
      by (by apply list_elem_of_filter).
    rewrite Hf in Hin. by apply elem_of_nil in Hin.
  - assert (Hall : ∀ w, w ∈ first :: others →
                        w ∈ candidates ∧ len w = word_length ∧ w ∉ used).
    { intros w Hw. rewrite <- Hf in Hw. apply list_elem_of_filter in Hw. tauto. }
    split.
    + intros w [= <-]. apply Hall, random_choice_elem_of.
    + split; [done|]. intros Hused. exfalso.
      destruct (Hall first) as (Hin & Hlen & Hnot); [apply list_elem_of_here|].
      by apply Hnot, Hused.
Qed.

(** X27. The secret [play_gui] chooses is a word of the solution list with
    the target length, an unused one whenever there is one; the choice raises
    [ValueError] exactly when the list has no word of that length. *)
Theorem choose_secret_spec (r1 r2 : nat) (used : gset (list N))
    (all_solutions : list (list N)) (word_length : Z) :
  (∀ secret, choose_secret r1 r2 used all_solutions word_length = Ok secret →
     secret ∈ all_solutions ∧ len secret = word_length
     ∧ ((∃ w, w ∈ all_solutions ∧ len w = word_length ∧ w ∉ used) → secret ∉ used))
  ∧ ((∃ e, choose_secret r1 r2 used all_solutions word_length = Raise e)
     ↔ ∀ w, w ∈ all_solutions → len w ≠ word_length).
Proof.
  unfold choose_secret, pick_unused_solution, pick_random_solution.
  destruct (filter (λ w, len w = word_length ∧ w ∉ used) all_solutions)
    as [|u unused] eqn:Hu.
  - destruct (filter (λ w, len w = word_length) all_solutions) as [|f others] eqn:Hf.
    + split; [done|]. split; [|eauto]. intros _ w Hw Hlen.
      assert (Hin : w ∈ filter (λ w, len w = word_length) all_solutions)
        by (by apply list_elem_of_filter).
      rewrite Hf in Hin. by apply elem_of_nil in Hin.
    + assert (Hall : ∀ w, w ∈ f :: others → w ∈ all_solutions ∧ len w = word_length).
      { intros w Hw. rewrite <- Hf in Hw. apply list_elem_of_filter in Hw. tauto. }
      split.
      * intros secret [= <-].
        destruct (Hall _ (random_choice_elem_of r2 f others)) as [Hin Hlen].
        split_and!; [done|done|]. intros (w & Hw & Hwl & Hnot). exfalso.
        assert (Hin' : w ∈ filter (λ w, len w = word_length ∧ w ∉ used) all_solutions)
          by (by apply list_elem_of_filter).
        rewrite Hu in Hin'. by apply elem_of_nil in Hin'.
      * split; [by intros [e ?]|]. intros Hnone. exfalso.
        destruct (Hall f) as [Hin Hlen]; [apply list_elem_of_here|].
        by apply (Hnone f).
  - assert (Hall : ∀ w, w ∈ u :: unused →
                        w ∈ all_solutions ∧ len w = word_length ∧ w ∉ used).
    { intros w Hw. rewrite <- Hu in Hw. apply list_elem_of_filter in Hw. tauto. }
    split.
    + intros secret [= <-].
      destruct (Hall _ (random_choice_elem_of r1 u unused)) as (Hin & Hlen & Hnot).
      by split_and!.
    + split; [by intros [e ?]|]. intros Hnone. exfalso.
      destruct (Hall u) as (Hin & Hlen & _); [apply list_elem_of_here|].
      by apply (Hnone u).
Qed.

Lemma pick_unused_solution_spec_witness :
  py "dogs" ∈ [py "cats"; py "dogs"; py "horse"] ∧ len (py "dogs") = 4
  ∧ py "dogs" ∉ ({[ py "cats" ]} : gset (list N)).
Proof.
  destruct (pick_unused_solution_spec 7 {[ py "cats" ]}
              [py "cats"; py "dogs"; py "horse"] 4) as [Hsome _].
  apply Hsome. vm_compute. reflexivity.
Defined.

Lemma choose_secret_spec_witness :
  py "dogs" ∈ [py "cats"; py "dogs"; py "horse"] ∧ len (py "dogs") = 4
  ∧ ((∃ w, w ∈ [py "cats"; py "dogs"; py "horse"] ∧ len w = 4
           ∧ w ∉ ({[ py "cats" ]} : gset (list N)))
     → py "dogs" ∉ ({[ py "cats" ]} : gset (list N))).
Proof.
  destruct (choose_secret_spec 7 3 {[ py "cats" ]}
              [py "cats"; py "dogs"; py "horse"] 4) as [Hok _].
  apply Hok. vm_compute. reflexivity.
Defined.

(** ** The morphological heuristics *)

Section Heuristics.
Context `{rt : PyRuntime}.

(** X28. [_should_exclude_inflected] never flags a word when the catalog is
    empty, when the language code starts with neither [en] nor [de], or when
    the lower-cased word has at most three letters. *)
Theorem should_exclude_inflected_never (word lang : list N) (catalog : gset (list N)) :
  catalog = ∅
  ∨ (startswith lang (py "en") = false ∧ startswith lang (py "de") = false)
  ∨ (length (str_lower word) ≤ 3)%nat →
  _should_exclude_inflected word lang catalog = false.
Proof.
  intros Hcase. unfold _should_exclude_inflected.
  case_bool_decide as Hcat; [done|].
  destruct Hcase as [?|[[Hen Hde]|Hshort]]; [done|by rewrite Hen, Hde|].
  assert (_looks_plural_en word catalog = false) as -> .
  { unfold _looks_plural_en. by rewrite bool_decide_eq_true_2. }
  assert (_looks_past_tense_en word catalog = false) as ->.
  { unfold _looks_past_tense_en. by rewrite bool_decide_eq_true_2. }
  assert (_looks_plural_de word catalog = false) as ->.
  { unfold _looks_plural_de. by rewrite bool_decide_eq_true_2. }
  assert (_looks_past_tense_de word catalog = false) as ->.
  { unfold _looks_past_tense_de. by rewrite bool_decide_eq_true_2. }
  by destruct (startswith lang (py "en")), (startswith lang (py "de")).
Qed.

End Heuristics.

Lemma should_exclude_inflected_never_witness :
  _should_exclude_inflected (rt := ascii_runtime) (py "as") (py "en") {[ py "a" ]} = false.
Proof.
  apply (should_exclude_inflected_never (rt := ascii_runtime)).
  right. right. vm_compute. lia.
Defined.

Lemma length_py s : length (py s) = String.length s.
Proof.
  unfold py. rewrite length_fmap. induction s as [|a s IH]; simpl; [done|by rewrite IH].
Qed.

Lemma has_shorter (catalog : gset (list N)) (w base : list N) :
  has catalog base = true → (length base < length w)%nat →
  ∃ base, base ∈ catalog ∧ base ≠ w ∧ (length base ≤ length w)%nat.
Proof.
  intros Hin%bool_decide_eq_true Hlen. exists base. split_and!; [done| |lia].
  intros ->. lia.
Qed.

Lemma has_replaced (catalog : gset (list N)) (w suffix other : list N) :
  endswith w suffix = true →
  has catalog (drop_last (length suffix) w ++ other) = true →
  length other = length suffix → other ≠ suffix →
  ∃ base, base ∈ catalog ∧ base ≠ w ∧ (length base ≤ length w)%nat.
Proof.
  intros [stem ->]%endswith_spec Hin%bool_decide_eq_true Hlen Hne.
  rewrite drop_last_app in Hin. exists (stem ++ other). split_and!; [done| |].
  - by intros ?%(inj (app stem)).
  - rewrite !length_app. lia.
Qed.

Ltac heuristic_step :=
  lazymatch goal with
  | |- (if ?c then true else _) = true → _ =>
      let H := fresh "Hc" in
      destruct c eqn:H; [intros _|clear H]
  end.

Ltac shorter_base H :=
  apply (has_shorter _ _ _ H); unfold drop_last;
  rewrite ?length_app, ?length_drop, ?length_take, ?length_py; simpl; lia.

Section HeuristicBases.
Context `{rt : PyRuntime}.

Lemma looks_plural_en_base word catalog :
  _looks_plural_en word catalog = true →
  ∃ base, base ∈ catalog ∧ base ≠ str_lower word
          ∧ (length base ≤ length (str_lower word))%nat.
Proof.
  unfold _looks_plural_en. set (w := str_lower word).
  case_bool_decide as Hlen; [done|].
  heuristic_step.
  { apply andb_true_iff in Hc as [_ Hhas]. shorter_base Hhas. }
  heuristic_step.
  { apply andb_true_iff in Hc as [_ [Hhas|Hhas]%orb_true_iff]; shorter_base Hhas. }
  heuristic_step.
  { apply andb_true_iff in Hc as [_ Hhas]. shorter_base Hhas. }
  heuristic_step.
  { apply andb_true_iff in Hc as [[Hend _]%andb_true_iff Hhas].
    by apply (has_replaced catalog w (py "men") (py "man")). }
  heuristic_step.
  { apply andb_true_iff in Hc as [_ Hhas]. shorter_base Hhas. }
  heuristic_step; [|done].
  apply andb_true_iff in Hc as [_ Hhas]. shorter_base Hhas.
Qed.

Lemma looks_past_tense_en_base word catalog :
  _looks_past_tense_en word catalog = true →
  ∃ base, base ∈ catalog ∧ base ≠ str_lower word
          ∧ (length base ≤ length (str_lower word))%nat.
Proof.
  unfold _looks_past_tense_en. set (w := str_lower word).
  case_bool_decide as Hlen; [done|].
  heuristic_step.
  { apply andb_true_iff in Hc as [_ Hhas]. shorter_base Hhas. }
  heuristic_step.
  { apply andb_true_iff in Hc as [_ Hhas]. shorter_base Hhas. }
  heuristic_step; [|done].
  apply andb_true_iff in Hc as [[_ Hhas]%andb_true_iff _]. shorter_base Hhas.
Qed.

Lemma looks_plural_de_base word catalog :
  _looks_plural_de word catalog = true →
  ∃ base, base ∈ catalog ∧ base ≠ str_lower word
          ∧ (length base ≤ length (str_lower word))%nat.
Proof.
  unfold _looks_plural_de. set (w := str_lower word).
  case_bool_decide as Hlen; [done|].
  heuristic_step.
  { apply andb_true_iff in Hc as [[_ Hl%bool_decide_eq_true]%andb_true_iff Hhas].
    shorter_base Hhas. }
  do 3 (heuristic_step;
        [apply andb_true_iff in Hc as [_ Hhas]; shorter_base Hhas|]).
  heuristic_step; [|done].
  apply andb_true_iff in Hc as [_ Hhas]. shorter_base Hhas.
Qed.

Lemma looks_past_tense_de_base word catalog :
  _looks_past_tense_de word catalog = true →
  ∃ base, base ∈ catalog ∧ base ≠ str_lower word
          ∧ (length base ≤ length (str_lower word))%nat.
Proof.
  unfold _looks_past_tense_de. set (w := str_lower word).
  case_bool_decide as Hlen; [done|].
  heuristic_step.
  { apply andb_true_iff in Hc as [[[_ Hl%bool_decide_eq_true]%andb_true_iff _]%andb_true_iff Hhas].
    shorter_base Hhas. }
  heuristic_step.
  { apply andb_true_iff in Hc as [[[_ Hl%bool_decide_eq_true]%andb_true_iff _]%andb_true_iff Hhas].
    shorter_base Hhas. }
  cbn [existsb]. rewrite !orb_true_iff, !andb_true_iff.
  intros [[[Hend Hl%bool_decide_eq_true] Hhas]
         |[[[Hend Hl%bool_decide_eq_true] Hhas]
          |[[[Hend Hl%bool_decide_eq_true] Hhas]
           |[[[Hend Hl%bool_decide_eq_true] Hhas]|?]]]]; [| | | |done].
  - apply (has_replaced catalog w (py "te") (py "en")); try done.
  - rewrite length_py in Hl. simpl in Hl. shorter_base Hhas.
  - rewrite length_py in Hl. simpl in Hl. shorter_base Hhas.
  - rewrite length_py in Hl. simpl in Hl. shorter_base Hhas.
Qed.

(** X29. A word is flagged only against another catalog word: when
    [_should_exclude_inflected] returns true, the catalog holds a word that
    differs from the lower-cased word and is not longer than it. *)
Theorem should_exclude_inflected_has_base (word lang : list N) (catalog : gset (list N)) :
  _should_exclude_inflected word lang catalog = true →
  ∃ base, base ∈ catalog ∧ base ≠ str_lower word
          ∧ (length base ≤ length (str_lower word))%nat.
Proof.
  unfold _should_exclude_inflected. case_bool_decide; [done|].
  destruct (startswith lang (py "en")).
  - intros [?|?]%orb_true_iff;
      [by apply looks_plural_en_base|by apply looks_past_tense_en_base].
  - destruct (startswith lang (py "de")); [|done].
    intros [?|?]%orb_true_iff;
      [by apply looks_plural_de_base|by apply looks_past_tense_de_base].
Qed.

End HeuristicBases.

Lemma should_exclude_inflected_has_base_witness :
  ∃ base, base ∈ ({[ py "cat"; py "cats" ]} : gset (list N))
          ∧ base ≠ str_lower (PyRuntime := ascii_runtime) (py "cats")
          ∧ (length base ≤ length (str_lower (PyRuntime := ascii_runtime) (py "cats")))%nat.
Proof.
  apply (should_exclude_inflected_has_base (rt := ascii_runtime) (py "cats") (py "en")).
  vm_compute. reflexivity.
Defined.

(** ** Pairing the dictionary files *)

Lemma odict_set_elem_of k v d kv :
  kv ∈ odict_set k v d → kv = (k, v) ∨ kv ∈ d.
Proof.
  induction d as [|[k' v'] d IH]; simpl.
  - intros ->%list_elem_of_singleton. by left.
  - case_bool_decide.
    + intros [->|?]%elem_of_cons; [by left|]. right. by apply list_elem_of_further.
    + intros [->|Hin]%elem_of_cons; [right; apply list_elem_of_here|].
      destruct (IH Hin); [by left|]. right. by apply list_elem_of_further.
Qed.

Lemma odict_get_elem_of k d v : odict_get k d = Some v → (k, v) ∈ d.
Proof.
  unfold odict_get.
  destruct (list_find (λ kv, kv.1 = k) d) as [[i [k' v']]|] eqn:Hfind; simpl; [|done].
  intros [= <-]. apply list_find_Some in Hfind as (Hlook & Hk & _). simpl in Hk. subst k'.
  by eapply list_elem_of_lookup_2.
Qed.

Section Pairing.
Context `{rt : PyRuntime}.

(** X30. [_find_matching_dict_pairs] raises [FileNotFoundError] when the
    directory does not exist. Otherwise every pair it returns is made of the
    normalised paths of two listed names with the same base name, the first
    ending in [.aff] and the second in [.dic], case ignored. *)
Theorem find_matching_dict_pairs_sound (fs : FileSystem) (directory : list N) :
  match fs_listdir fs !! directory with
  | None => _find_matching_dict_pairs fs directory = Raise FileNotFoundError
  | Some names =>
      ∃ pairs, _find_matching_dict_pairs fs directory = Ok pairs
        ∧ ∀ aff_path dic_path, (aff_path, dic_path) ∈ pairs →
            ∃ aff_name dic_name,
              aff_name ∈ names ∧ dic_name ∈ names
              ∧ splitext_root aff_name = splitext_root dic_name
              ∧ endswith (str_lower aff_name) (py ".aff") = true
              ∧ endswith (str_lower dic_name) (py ".dic") = true
              ∧ aff_path = normpath (path_join directory aff_name)
              ∧ dic_path = normpath (path_join directory dic_name)
  end.
Proof.
  unfold _find_matching_dict_pairs.
  destruct (fs_listdir fs !! directory) as [names|]; [|done].
  set (good := λ (ext : list N) (d : list (list N * list N)),
         ∀ k v, (k, v) ∈ d →
           ∃ name, name ∈ names ∧ k = splitext_root name
                   ∧ v = normpath (path_join directory name)
                   ∧ endswith (str_lower name) ext = true).
  set (step := λ '(aff_files, dic_files) name,
         if endswith (str_lower name) (py ".aff")
         then (odict_set (splitext_root name) (normpath (path_join directory name)) aff_files,
               dic_files)
         else if endswith (str_lower name) (py ".dic")
         then (aff_files,
               odict_set (splitext_root name) (normpath (path_join directory name)) dic_files)
         else (aff_files, dic_files)).
  assert (Hfold : ∀ todo st,
    (∀ name, name ∈ todo → name ∈ names) →
    good (py ".aff") st.1 → good (py ".dic") st.2 →
    good (py ".aff") (foldl step st todo).1 ∧ good (py ".dic") (foldl step st todo).2).
  { induction todo as [|name todo IH]; intros [aff_files dic_files] Hsub Ha Hd; [done|].
    cbn [foldl]. apply IH.
    - intros n Hn. by apply Hsub, list_elem_of_further.
    - simpl. destruct (endswith (str_lower name) (py ".aff")) eqn:Haff;
        [|destruct (endswith (str_lower name) (py ".dic")); exact Ha].
      intros k v [[= -> ->]|Hin]%odict_set_elem_of; [|by apply Ha].
      exists name. split_and!; try done. apply Hsub, list_elem_of_here.
    - simpl. destruct (endswith (str_lower name) (py ".aff")) eqn:Haff; [exact Hd|].
      destruct (endswith (str_lower name) (py ".dic")) eqn:Hdic; [|exact Hd].
      intros k v [[= -> ->]|Hin]%odict_set_elem_of; [|by apply Hd].
      exists name. split_and!; try done. apply Hsub, list_elem_of_here. }
  destruct (Hfold names ([], [])) as [Ha Hd]; try done;
    try (by intros k v ?%elem_of_nil).
  fold step. destruct (foldl step ([], []) names) as [aff_files dic_files].
  eexists. split; [reflexivity|].
  intros aff_path dic_path ([base_name aff_path'] & Hin & Hpair)%list_elem_of_omap.
  destruct (odict_get base_name dic_files) as [dic_path'|] eqn:Hget; simpl in Hpair; [|done].
  injection Hpair as <- <-.
  destruct (Ha _ _ Hin) as (aff_name & ? & Hk & ? & ?).
  destruct (Hd _ _ (odict_get_elem_of _ _ _ Hget)) as (dic_name & ? & Hk' & ? & ?).
  exists aff_name, dic_name. split_and!; try done. congruence.
Qed.

End Pairing.
